(** * leetcode-extend: the problem-set overlay and its rank-data store

    A shallow embedding of

    - [src/content/pages/global/globalSlice.ts]: the Redux slice that keeps
      the rank records fetched from the data layer, and
    - [src/content/pages/problemset/App.tsx]: the component that switches the
      rank column on and off, rewrites the URL when it is switched off,
      maps the header cells to sort keys and tracks the rows of the table.

    Time is a discrete clock in milliseconds ([Z]); the browser's timer queue
    and the navigation primitive are explicit parts of the state. *)

From stdpp Require Import gmap strings list.
From Stdlib Require Import ZArith Lia Ascii.

Set Warnings "-clear-no-such-hyp".

Open Scope Z_scope.

(** A handler either completes with a new state or throws. *)
Inductive Result (A : Type) : Type :=
  | Ok (value : A)
  | Throw (error : string).
Arguments Ok {A} value.
Arguments Throw {A} error.

(** ** Part I: [globalSlice.ts] *)

(** What [createAsyncThunk] dispatches over the life of one request: first
    [pending], then [fulfilled] with the value the payload creator resolved
    to, or [rejected] with the error it threw. *)
Inductive ThunkPhase (P : Type) : Type :=
  | pending
  | fulfilled (payload : P)
  | rejected (error : string).
Arguments pending {P}.
Arguments fulfilled {P} payload.
Arguments rejected {P} error.

(** The outcome of the payload creator's promise. *)
Inductive Settled (P : Type) : Type :=
  | Resolve (value : P)
  | Reject (reason : string).
Arguments Resolve {P} value.
Arguments Reject {P} reason.

(** The store of the rank records is a plain object, [{}] at the start.
    Every plain object inherits the members of [Object.prototype]; these
    are their names. *)
Definition objectPrototypeMembers : list string :=
  [ "constructor"; "__proto__"; "hasOwnProperty"; "isPrototypeOf";
    "propertyIsEnumerable"; "toLocaleString"; "toString"; "valueOf";
    "__defineGetter__"; "__defineSetter__"; "__lookupGetter__"; "__lookupSetter__" ].

(** What [object[name]] evaluates to: the value of an own property, a
    member inherited from [Object.prototype], or [undefined]. *)
Inductive Property (A : Type) : Type :=
  | own (value : A)
  | inherited (member : string)
  | undefined.
Arguments own {A} value.
Arguments inherited {A} member.
Arguments undefined {A}.

(** [object[name]], for an object whose own properties are those of [object]. *)
Definition getProperty {A : Type} (object : gmap string A) (name : string) : Property A :=
  match object !! name with
  | Some value => own value
  | None => if decide (name ∈ objectPrototypeMembers) then inherited name else undefined
  end.

Section GlobalSlice.
(** [GlobalData], [ProblemsetPageProps] and [ProblemRankData] are declared
    in [@/utils]; the slice only reads the [TitleSlug] of a rank record. *)
Context {GlobalData ProblemsetPageProps ProblemRankData : Type}.
Variable TitleSlug : ProblemRankData → string.

(** The slice state.  [rankDataMap] holds the own properties of the
    object [ProblemRankData], one per key. *)
Record GlobalState : Type := mkGlobalState {
  globalData : option GlobalData;
  problemsetPageProps : option ProblemsetPageProps;
  rankDataMap : gmap string ProblemRankData
}.

Definition initialState : GlobalState :=
  {| globalData := None; problemsetPageProps := None; rankDataMap := ∅ |}.

(** Every action the store can hand to this slice's reducer: the three
    thunks of this file in any phase, and actions of other slices (such as
    those of [fetchAllQuestions]), known here only by their type string. *)
Inductive Action : Type :=
  | fetchGlobalData (ph : ThunkPhase GlobalData)
  | fetchProblemsetPageProps (ph : ThunkPhase ProblemsetPageProps)
  | fetchProblemRankData (ph : ThunkPhase (list ProblemRankData))
  | otherSlice (type : string).

(** [for (const rank of action.payload) state.ProblemRankData[rank.TitleSlug] = rank],
    run on the draft that immer hands to the case reducer.  An assignment
    to a key creates or replaces an own property, except for the key
    [__proto__]: that one runs the setter inherited from
    [Object.prototype], and the reducer ends in an error with nothing of
    the draft kept. *)
Fixpoint storeRanks (payload : list ProblemRankData)
    (draft : gmap string ProblemRankData) : Result (gmap string ProblemRankData) :=
  match payload with
  | [] => Ok draft
  | rank :: payload' =>
      if decide (TitleSlug rank = "__proto__") then Throw "Error"
      else storeRanks payload' (<[TitleSlug rank := rank]> draft)
  end.

(** [globalDataSlice.reducer]: the three [addCase]s of [extraReducers];
    [createSlice] returns the state as it is for any other action. *)
Definition reducer (state : GlobalState) (action : Action) : Result GlobalState :=
  match action with
  | fetchGlobalData (fulfilled payload) =>
      Ok {| globalData := Some payload;
            problemsetPageProps := problemsetPageProps state;
            rankDataMap := rankDataMap state |}
  | fetchProblemsetPageProps (fulfilled payload) =>
      Ok {| globalData := globalData state;
            problemsetPageProps := Some payload;
            rankDataMap := rankDataMap state |}
  | fetchProblemRankData (fulfilled payload) =>
      match storeRanks payload (rankDataMap state) with
      | Ok ranks =>
          Ok {| globalData := globalData state;
                problemsetPageProps := problemsetPageProps state;
                rankDataMap := ranks |}
      | Throw error => Throw error
      end
  | _ => Ok state
  end.

(** The actions one run of a thunk dispatches, given how its payload
    creator settled.  The thunk catches a rejection and turns it into the
    [rejected] action: the result is always a list of actions. *)
Definition thunkActions {P : Type} (wrap : ThunkPhase P → Action)
    (outcome : Settled P) : list Action :=
  [ wrap pending;
    match outcome with
    | Resolve value => wrap (fulfilled value)
    | Reject reason => wrap (rejected reason)
    end ].

(** The state the store holds after one action is dispatched: the one
    the reducer returns, or the one it held when the reducer throws. *)
Definition storeDispatch (state : GlobalState) (action : Action) : GlobalState :=
  match reducer state action with
  | Ok state' => state'
  | Throw _ => state
  end.

(** The store applies the reducer to each dispatched action in turn. *)
Definition dispatchAll (state : GlobalState) (actions : list Action) : GlobalState :=
  foldl storeDispatch state actions.

(** [RootState]: only the [global] slice matters here. *)
Record RootState : Type := mkRootState { global : GlobalState }.

(** [state.global.ProblemRankData[titleSlug]] *)
Definition selectProblemRankDataByTitleSlug (state : RootState)
    (titleSlug : string) : Property ProblemRankData :=
  getProperty (rankDataMap (global state)) titleSlug.

(** The rank records delivered by the fulfilled rank-data fetches of an
    action sequence, oldest first. *)
Definition fulfilledRanks (actions : list Action) : list ProblemRankData :=
  mjoin (omap (λ a, match a with
                    | fetchProblemRankData (fulfilled payload) => Some payload
                    | _ => None
                    end) actions).

(** A payload the reducer takes: none of its records has the slug
    [__proto__]. *)
Definition accepted (payload : list ProblemRankData) : Prop :=
  "__proto__" ∉ TitleSlug <$> payload.

(** The records of the fulfilled rank-data fetches whose payload the
    reducer took, oldest first. *)
Definition storedRanks (actions : list Action) : list ProblemRankData :=
  mjoin (omap (λ a, match a with
                    | fetchProblemRankData (fulfilled payload) =>
                        if decide (accepted payload) then Some payload else None
                    | _ => None
                    end) actions).

(** The records of a list that carry a given slug. *)
Definition withSlug (slug : string) (ranks : list ProblemRankData) : list ProblemRankData :=
  filter (λ r, TitleSlug r = slug) ranks.

(** The own properties after assigning each record of a list in turn. *)
Definition assignAll (ranks : list ProblemRankData)
    (object : gmap string ProblemRankData) : gmap string ProblemRankData :=
  foldl (λ acc rank, <[TitleSlug rank := rank]> acc) object ranks.

End GlobalSlice.

(** *** The other selectors, lines 65-73 *)

Section GlobalSelectors.
(** The selectors read optional properties of [GlobalData] and of
    [ProblemsetPageProps]: [userStatus], its [isPremium] and [isSignedIn],
    and [featuredLists].  Each optional step yields [None] for
    [undefined]. *)
Context {GlobalData ProblemsetPageProps ProblemRankData UserStatus FeaturedLists : Type}.
Variable userStatus : GlobalData → option UserStatus.
Variable isPremium : UserStatus → option bool.
Variable isSignedIn : UserStatus → option bool.
Variable featuredLists : ProblemsetPageProps → FeaturedLists.

(** [state.global.globalData?.userStatus?.isPremium] *)
Definition selectIsPremium
    (state : @RootState GlobalData ProblemsetPageProps ProblemRankData) : option bool :=
  match globalData (global state) with
  | Some data =>
      match userStatus data with
      | Some status => isPremium status
      | None => None
      end
  | None => None
  end.

(** [state.global.globalData?.userStatus?.isSignedIn] *)
Definition selectIsSignedIn
    (state : @RootState GlobalData ProblemsetPageProps ProblemRankData) : option bool :=
  match globalData (global state) with
  | Some data =>
      match userStatus data with
      | Some status => isSignedIn status
      | None => None
      end
  | None => None
  end.

(** [state.global.problemsetPageProps?.featuredLists] *)
Definition selectFeaturedLists
    (state : @RootState GlobalData ProblemsetPageProps ProblemRankData)
    : option FeaturedLists :=
  match problemsetPageProps (global state) with
  | Some props => Some (featuredLists props)
  | None => None
  end.

End GlobalSelectors.

(** The payloads of the fulfilled [fetchGlobalData] actions of a sequence,
    oldest first, and likewise for [fetchProblemsetPageProps]. *)
Definition fulfilledGlobalData {GlobalData ProblemsetPageProps ProblemRankData : Type}
    (actions : list (@Action GlobalData ProblemsetPageProps ProblemRankData))
    : list GlobalData :=
  omap (λ a, match a with
             | fetchGlobalData (fulfilled payload) => Some payload
             | _ => None
             end) actions.

Definition fulfilledPageProps {GlobalData ProblemsetPageProps ProblemRankData : Type}
    (actions : list (@Action GlobalData ProblemsetPageProps ProblemRankData))
    : list ProblemsetPageProps :=
  omap (λ a, match a with
             | fetchProblemsetPageProps (fulfilled payload) => Some payload
             | _ => None
             end) actions.

(** ** Part II: [problemset/App.tsx] *)

(** *** Query parameters

    The types below are declared in [./utils], next to [parseParams] and
    [serializationPrams].  A sort key is a string at run time; the only one
    [App.tsx] names is ['RANKING']. *)
Abbreviation OrderBy := string (only parsing).

Definition RANKING : OrderBy := "RANKING".

(** Modelled from the spec: the type of the direction field [sortOrder] is
    declared in [./utils].  It is [ASCENDING] or [DESCENDING], or a positive
    integer standing in for a direction (the sequence token). *)
Inductive SortOrder : Type :=
  | ASCENDING
  | DESCENDING
  | token (n : positive).

Record Sorting : Type := mkSorting {
  orderBy : OrderBy;
  sortOrder : SortOrder
}.

Record Custom : Type := mkCustom {
  sort : option Sorting;
  rankRange : option (Z * Z)
}.

(** [sorting] and [custom] are optional properties; every other parameter
    is kept as a key and a value in [others]. *)
Record Params : Type := mkParams {
  sorting : option (list Sorting);
  custom : option Custom;
  others : list (string * string)
}.

#[global] Instance SortOrder_eq_dec : EqDecision SortOrder.
Proof. solve_decision. Defined.
#[global] Instance Sorting_eq_dec : EqDecision Sorting.
Proof. solve_decision. Defined.

(** Lines 83-90: what the delayed callback of [handleDisable] does to the
    parsed parameters before it serializes them. *)
Definition clearCustom (params : Params) : Params :=
  match custom params with
  | Some c =>
      {| sorting :=
           match sort c with
           | Some s => if decide (orderBy s ≠ RANKING) then Some [s] else None
           | None => None
           end;
         custom := None;
         others := others params |}
  | None => params
  end.

(** *** Host elements *)

Inductive ElementKind : Type :=
  | HTMLDivElement
  | OtherHTMLElement
  | NonHTMLElement.

(** An element of the host's table: an identity, its text, what
    [instanceof] says about it and the [padding] of its inline style. *)
Record Element : Type := mkElement {
  nodeId : nat;
  textContent : string;
  kind : ElementKind;
  stylePadding : string
}.

#[global] Instance ElementKind_eq_dec : EqDecision ElementKind.
Proof. solve_decision. Defined.
#[global] Instance Element_eq_dec : EqDecision Element.
Proof. solve_decision. Defined.

Definition instanceofHTMLElement (el : Element) : bool :=
  match kind el with
  | HTMLDivElement | OtherHTMLElement => true
  | NonHTMLElement => false
  end.

Definition instanceofHTMLDivElement (el : Element) : bool :=
  match kind el with
  | HTMLDivElement => true
  | _ => false
  end.

(** [child.style.padding = '0'] *)
Definition zeroPadding (el : Element) : Element :=
  {| nodeId := nodeId el; textContent := textContent el; kind := kind el;
     stylePadding := "0" |}.

(** *** The header map, lines 154-171 *)

Record SortKey : Type := mkSortKey {
  key : OrderBy;
  title : string
}.

(** [new Set(['状态', '企业'])]: the texts of the status and the company
    header cells. *)
Definition excludedTitles : gset string := {[ "状态"; "企业" ]}.

(** The predicate of the [filter] over the header cells: the text is not
    empty and is not one of the excluded titles. *)
Definition keepHeaderCell (el : Element) : bool :=
  bool_decide (textContent el ≠ "") && bool_decide (textContent el ∉ excludedTitles).

(** One turn of the loop [for (let i = 0; i < SORT_KEY.length; i++)]. *)
Definition assignRoot (SORT_KEY : list SortKey) (children : list Element)
    (acc : gmap string Element) (i : nat) : gmap string Element :=
  match SORT_KEY !! i, children !! i with
  | Some k, Some child =>
      if instanceofHTMLElement child then <[key k := zeroPadding child]> acc else acc
  | _, _ => acc
  end.

(** [titleRow] is [None] when [tableEl.children[0]?.children[0]?.children[0]]
    is undefined, and otherwise holds the children of the header row. *)
Definition otherRoots (SORT_KEY : list SortKey) (titleRow : option (list Element))
    : gmap string Element :=
  match titleRow with
  | Some cells =>
      let children := filter (λ el, keepHeaderCell el = true) cells in
      foldl (assignRoot SORT_KEY children) ∅ (seq 0 (length SORT_KEY))
  | None => ∅
  end.

(** What the loop stores for the [i]-th kept cell, if anything. *)
Definition rootAt (children : list Element) (i : nat) : option Element :=
  match children !! i with
  | Some child => if instanceofHTMLElement child then Some (zeroPadding child) else None
  | None => None
  end.

(** *** The component state and its handlers *)

(** The two fields of [getBoundingClientRect()] that [handleDisable] reads,
    in whole pixels. *)
Record DOMRect : Type := mkDOMRect {
  right : Z;
  bottom : Z
}.

(** [Pos], the anchor handed to the [Open] button. *)
Record Pos : Type := mkPos {
  posRight : Z;
  posBottom : Z
}.

Record Location : Type := mkLocation {
  pathname : string;
  search : string
}.

(** What [App] hands to [dispatch]. *)
Inductive Dispatched : Type :=
  | disableProblemRating
  | enableProblemRating
  | fetchProblemRankDataThunk
  | fetchAllQuestions.

(** Everything the handlers and effects of [App] read or write.
    [timers] holds the deadlines of the pending [setTimeout] callbacks of
    [handleDisable], the next one to fire first; nothing in the component
    keeps a timer id, so the queue is only ever added to and fired.
    [dispatched] and [navigations] log the calls of [dispatch] and
    [routerTo], oldest first. *)
Record AppState : Type := mkAppState {
  now : Z;
  enable : bool;
  pos : option Pos;
  popperRef : option DOMRect;
  innerWidth : Z;
  innerHeight : Z;
  rootDisplay : string;
  location : Location;
  timers : list Z;
  dispatched : list Dispatched;
  navigations : list string
}.

Definition setNow (t : Z) (st : AppState) : AppState :=
  mkAppState t (enable st) (pos st) (popperRef st) (innerWidth st) (innerHeight st)
    (rootDisplay st) (location st) (timers st) (dispatched st) (navigations st).

Definition setEnable (b : bool) (st : AppState) : AppState :=
  mkAppState (now st) b (pos st) (popperRef st) (innerWidth st) (innerHeight st)
    (rootDisplay st) (location st) (timers st) (dispatched st) (navigations st).

Definition setPos (p : Pos) (st : AppState) : AppState :=
  mkAppState (now st) (enable st) (Some p) (popperRef st) (innerWidth st) (innerHeight st)
    (rootDisplay st) (location st) (timers st) (dispatched st) (navigations st).

Definition setRootDisplay (d : string) (st : AppState) : AppState :=
  mkAppState (now st) (enable st) (pos st) (popperRef st) (innerWidth st) (innerHeight st)
    d (location st) (timers st) (dispatched st) (navigations st).

Definition setLocation (l : Location) (st : AppState) : AppState :=
  mkAppState (now st) (enable st) (pos st) (popperRef st) (innerWidth st) (innerHeight st)
    (rootDisplay st) l (timers st) (dispatched st) (navigations st).

Definition setTimers (q : list Z) (st : AppState) : AppState :=
  mkAppState (now st) (enable st) (pos st) (popperRef st) (innerWidth st) (innerHeight st)
    (rootDisplay st) (location st) q (dispatched st) (navigations st).

Definition logDispatch (a : Dispatched) (st : AppState) : AppState :=
  mkAppState (now st) (enable st) (pos st) (popperRef st) (innerWidth st) (innerHeight st)
    (rootDisplay st) (location st) (timers st) (dispatched st ++ [a]) (navigations st).

Definition logNavigation (url : string) (st : AppState) : AppState :=
  mkAppState (now st) (enable st) (pos st) (popperRef st) (innerWidth st) (innerHeight st)
    (rootDisplay st) (location st) (timers st) (dispatched st) (navigations st ++ [url]).

(** Modelled from the spec: the reducers of [enableProblemRating] and
    [disableProblemRating] live in [../global/optionSlice]; they set and
    clear the flag that [selectProblemRatingOption] returns as [enable].
    The two thunks start a request and leave this state alone. *)
Definition dispatch (a : Dispatched) (st : AppState) : AppState :=
  let st := logDispatch a st in
  match a with
  | enableProblemRating => setEnable true st
  | disableProblemRating => setEnable false st
  | fetchProblemRankDataThunk | fetchAllQuestions => st
  end.

(** The first [useEffect], lines 99-108. *)
Definition enableEffect (st : AppState) : AppState :=
  if enable st then
    setRootDisplay "block" (dispatch fetchAllQuestions (dispatch fetchProblemRankDataThunk st))
  else
    setRootDisplay "none" st.

(** After a handler, React renders again and runs the effect when its
    dependency [enable] differs from the one of the previous render. *)
Definition commit (prevEnable : bool) (st : AppState) : AppState :=
  if decide (prevEnable = enable st) then st else enableEffect st.

(** The browser's timer queue: a new deadline goes behind every deadline
    that is not later. *)
Fixpoint enqueue (deadline : Z) (queue : list Z) : list Z :=
  match queue with
  | [] => [deadline]
  | d :: queue' =>
      if decide (d ≤ deadline) then d :: enqueue deadline queue' else deadline :: queue
  end.

(** [setTimeout(callback, delay)], called at time [now]. *)
Definition setTimeout (delay : Z) (st : AppState) : AppState :=
  setTimers (enqueue (now st + delay) (timers st)) st.

(** Every timer is set 500 ms ahead, so no pending deadline is further
    away than that. *)
Definition deadlinesBounded (st : AppState) : Prop :=
  Forall (λ d, d ≤ now st + 500) (timers st).

Section App.
(** [parseParams] and [serializationPrams] come from [./utils] and
    [routerTo] from [@/utils]: [parseParams] reads the current location,
    and [hostRoute] is what the host's router makes of the location when
    [routerTo] is called with a URL. *)
Variable parseParams : Location → Params.
Variable serializationPrams : Params → string.
Variable hostRoute : string → Location → Location.

Definition routerTo (url : string) (st : AppState) : AppState :=
  setLocation (hostRoute url (location st)) (logNavigation url st).

(** The callback that [handleDisable] hands to [setTimeout], lines 80-93. *)
Definition disableCallback (st : AppState) : AppState :=
  let params := clearCustom (parseParams (location st)) in
  let url := pathname (location st) +:+ "?" +:+ serializationPrams params in
  routerTo url st.

(** The URL that callback navigates to when the location is [l]. *)
Definition disableUrl (l : Location) : string :=
  pathname l +:+ "?" +:+ serializationPrams (clearCustom (parseParams l)).

(** Lines 73-94.  [popperRef.current!] is [null] when the popper is not
    mounted, and reading a property of [null] throws. *)
Definition handleDisable (st : AppState) : Result AppState :=
  match popperRef st with
  | None => Throw "TypeError"
  | Some rect =>
      let st1 := setPos {| posRight := innerWidth st - right rect;
                           posBottom := innerHeight st - bottom rect |} st in
      let st2 := dispatch disableProblemRating st1 in
      let st3 := setTimeout 500 st2 in
      Ok (commit (enable st) st3)
  end.

(** Lines 95-97. *)
Definition handleEnable (st : AppState) : AppState :=
  commit (enable st) (dispatch enableProblemRating st).

(** Fire, in order, the callbacks of [queue] that are due at time [t]. *)
Fixpoint fireDue (t : Z) (queue : list Z) (st : AppState) : AppState :=
  match queue with
  | [] => st
  | d :: queue' =>
      if decide (d ≤ t) then
        fireDue t queue' (disableCallback (setTimers queue' (setNow (now st `max` d) st)))
      else st
  end.

(** Let the clock run to time [t]. *)
Definition advance (t : Z) (st : AppState) : AppState :=
  let st' := fireDue t (timers st) st in
  setNow (now st' `max` t) st'.

End App.

(** What can happen to the component: a click on the close control of the
    popper, a click on the open button, or time passing until [t]. *)
Inductive AppEvent : Type :=
  | ClickClose
  | ClickOpen
  | Wait (t : Z).

#[global] Instance AppEvent_eq_dec : EqDecision AppEvent.
Proof. solve_decision. Defined.

Section AppRun.
Variable parseParams : Location → Params.
Variable serializationPrams : Params → string.
Variable hostRoute : string → Location → Location.

(** A handler that throws leaves the state as it was. *)
Definition appStep (st : AppState) (e : AppEvent) : AppState :=
  match e with
  | ClickClose =>
      match handleDisable st with
      | Ok st' => st'
      | Throw _ => st
      end
  | ClickOpen => handleEnable st
  | Wait t => advance parseParams serializationPrams hostRoute t st
  end.

End AppRun.

(** The number of clicks on the close control in a run of events. *)
Definition closeClicks (events : list AppEvent) : nat :=
  length (filter (λ e, e = ClickClose) events).

(** *** The rows of the table, lines 110-133 *)

(** State of one run of the second [useEffect]: the clock, the timer of the
    debounced [handleRowChange], whether the [MutationObserver] is
    connected, the [rows] of [useState], and a log of the calls of
    [setRows] made by [handleRowChange], each with the time of the call. *)
Record SyncState : Type := mkSyncState {
  clock : Z;
  timeoutId : option Z;
  observing : bool;
  rows : list Element;
  republished : list (Z * list Element)
}.

(** Lines 120-124: the body of [handleRowChange], given the children of the
    row group when it runs. *)
Definition scanRows (children : list Element) : list Element :=
  filter (λ el, instanceofHTMLDivElement el = true) children.

Section Synchronizer.
(** The children of the row group at each instant: the host owns them. *)
Variable rowgroupChildren : Z → list Element.

(** Modelled from the spec: [debounce] of [src/utils] is not part of the
    sources.  A call of the debounced function cancels the pending call, if
    any, and opens a new window of [wait] ms; the wrapped function runs once
    the window has gone by with no further call. *)
Definition debounced (wait : Z) (s : SyncState) : SyncState :=
  {| clock := clock s; timeoutId := Some (clock s + wait); observing := observing s;
     rows := rows s; republished := republished s |}.

(** The pending call runs when its window is over: [handleRowChange] scans
    the row group as it is then and calls [setRows]. *)
Definition settle (t : Z) (s : SyncState) : SyncState :=
  match timeoutId s with
  | Some deadline =>
      if decide (deadline ≤ t) then
        let found := scanRows (rowgroupChildren deadline) in
        {| clock := clock s `max` deadline; timeoutId := None; observing := observing s;
           rows := found; republished := republished s ++ [(deadline, found)] |}
      else s
  | None => s
  end.

(** Let the clock run to time [t]. *)
Definition elapse (t : Z) (s : SyncState) : SyncState :=
  let s' := settle t s in
  {| clock := clock s' `max` t; timeoutId := timeoutId s'; observing := observing s';
     rows := rows s'; republished := republished s' |}.

Definition handleRowChange (s : SyncState) : SyncState := debounced 500 s.

(** The effect run at time [t].  [rowgroup] is
    [tableEl.children[0]?.children[1]], if there is one.  Every run makes
    a debounced closure of its own, and [s] is the state that run starts
    from: [timeoutId] is the timer of the closure of this run.  A run that
    follows another one whose call is still pending is [rerunEffect]
    below, which keeps that call. *)
Definition rowsEffect (enabled : bool) (rowgroup : option Element) (t : Z)
    (s : SyncState) : SyncState :=
  let s := elapse t s in
  if enabled then
    match rowgroup with
    | Some el =>
        if instanceofHTMLDivElement el then
          let s := handleRowChange s in
          {| clock := clock s; timeoutId := timeoutId s; observing := true;
             rows := rows s; republished := republished s |}
        else s
    | None => s
    end
  else
    {| clock := clock s; timeoutId := timeoutId s; observing := observing s;
       rows := []; republished := republished s |}.

(** A child-list mutation reported at time [t]: the observer, while it is
    connected, calls [handleRowChange]. *)
Definition mutation (s : SyncState) (t : Z) : SyncState :=
  let s := elapse t s in
  if observing s then handleRowChange s else s.

(** [observer.disconnect()], the cleanup of the effect. *)
Definition disconnect (s : SyncState) : SyncState :=
  {| clock := clock s; timeoutId := timeoutId s; observing := false;
     rows := rows s; republished := republished s |}.

End Synchronizer.

(** *** The effect run again

    When [enable] or [tableEl.children] changes, React runs the cleanup of
    the previous run and then the effect again.  The new run has a new
    debounced closure; a call still pending in the closure of an earlier
    run is not cancelled by anything.  [lastRun] is the state of the most
    recent run and [stale] the deadlines of the calls pending in the
    closures of the runs before it, the oldest first. *)
Record TableRows : Type := mkTableRows {
  lastRun : SyncState;
  stale : list Z
}.

Section Reruns.
Variable rowgroupChildren : Z → list Element.

(** A call left pending by an earlier run comes due: its [handleRowChange]
    scans the row group and calls [setRows]. *)
Definition staleCall (s : SyncState) (deadline : Z) : SyncState :=
  let found := scanRows (rowgroupChildren deadline) in
  {| clock := clock s `max` deadline; timeoutId := timeoutId s; observing := observing s;
     rows := found; republished := republished s ++ [(deadline, found)] |}.

(** Let the clock run to time [t]: the stale calls that are due run, in
    their order, and then the call of the last run if it is due (its
    deadline is not earlier than theirs, as its run started after their
    last calls). *)
Definition elapseRuns (t : Z) (r : TableRows) : TableRows :=
  {| lastRun := elapse rowgroupChildren t
                  (foldl staleCall (lastRun r) (filter (λ d, d ≤ t) (stale r)));
     stale := filter (λ d, ¬ d ≤ t) (stale r) |}.

(** The cleanup of the previous run and the effect run again at time [t]:
    the observer of the previous run is disconnected, its pending call
    becomes a stale one, and the new run starts with no call of its own
    pending. *)
Definition rerunEffect (enabled : bool) (rowgroup : option Element) (t : Z)
    (r : TableRows) : TableRows :=
  let r := elapseRuns t r in
  let previous := lastRun r in
  {| lastRun := rowsEffect rowgroupChildren enabled rowgroup t
                  {| clock := clock previous; timeoutId := None; observing := false;
                     rows := rows previous; republished := republished previous |};
     stale := stale r ++ match timeoutId previous with
                         | Some deadline => [deadline]
                         | None => []
                         end |}.

End Reruns.

(** No call of the debounced function is due at time [t] or before. *)
Definition quiet (s : SyncState) (t : Z) : Prop :=
  match timeoutId s with
  | Some deadline => t < deadline
  | None => True
  end.

(** Consecutive instants of a burst are in order and at most [gap] apart. *)
Fixpoint burst (gap : Z) (times : list Z) : Prop :=
  match times with
  | t1 :: ((t2 :: _) as rest) => t1 ≤ t2 ≤ t1 + gap ∧ burst gap rest
  | _ => True
  end.

(** *** The wrapper of the range filter, lines 135-152 *)

(** [rankRangeWrap] is the [useState] value; [beforeParent] lists, in
    document order, the nodes this effect has put in front of
    [tableEl.parentElement]; [nextNode] is the identity that the next
    [document.createElement] returns. *)
Record WrapState : Type := mkWrapState {
  rankRangeWrap : option nat;
  beforeParent : list nat;
  nextNode : nat
}.

(** The body of the third [useEffect].  [hasParent] tells whether
    [tableEl.parentElement] is there; [before] puts the new node right in
    front of it, behind the nodes put there earlier. *)
Definition wrapEffect (enabled hasParent : bool) (s : WrapState) : WrapState :=
  if enabled then
    let div := nextNode s in
    {| rankRangeWrap := Some div;
       beforeParent := if hasParent then beforeParent s ++ [div] else beforeParent s;
       nextNode := S div |}
  else
    {| rankRangeWrap := None; beforeParent := beforeParent s; nextNode := nextNode s |}.

(** The cleanup the effect returns when it ran with [enable] set; with
    [enable] clear it returns none. *)
Definition wrapCleanup (enabled : bool) (s : WrapState) : WrapState :=
  if enabled then
    {| rankRangeWrap := None; beforeParent := beforeParent s; nextNode := nextNode s |}
  else s.

(** One round of switching the feature on and off again: the effect runs
    with [enable] set, then its cleanup and the effect with [enable]
    clear. *)
Definition wrapRound (hasParent : bool) (s : WrapState) : WrapState :=
  wrapEffect false hasParent (wrapCleanup true (wrapEffect true hasParent s)).

(** ** Part III: the home page, [unnamed/part_000] *)

(** [isMount] and [unmount] are the two variables of the effect's closure,
    [homeRoot] the [useState] value, [containerChildren] the children of
    the element that [findElement('.css-kktm6n-RightContainer')] resolves
    to, and [homeNext] the identity of the next created element. *)
Record HomeState : Type := mkHomeState {
  isMount : bool;
  unmount : option nat;
  homeRoot : option nat;
  containerChildren : list nat;
  homeNext : nat
}.

(** Lines 23-24: the effect starts. *)
Definition homeEffect (s : HomeState) : HomeState :=
  {| isMount := true; unmount := None; homeRoot := homeRoot s;
     containerChildren := containerChildren s; homeNext := homeNext s |}.

(** Lines 26-32: [findElement] has resolved.  The [div] is created in any
    case, and prepended only while the effect is still mounted. *)
Definition homeFound (s : HomeState) : HomeState :=
  let root := homeNext s in
  if isMount s then
    {| isMount := true; unmount := Some root; homeRoot := Some root;
       containerChildren := root :: containerChildren s; homeNext := S root |}
  else
    {| isMount := false; unmount := unmount s; homeRoot := homeRoot s;
       containerChildren := containerChildren s; homeNext := S root |}.

(** Lines 34-37: the cleanup; [unmount], when set, is [root.remove()]. *)
Definition homeCleanup (s : HomeState) : HomeState :=
  {| isMount := false; unmount := unmount s; homeRoot := homeRoot s;
     containerChildren :=
       match unmount s with
       | Some root => filter (λ node, node ≠ root) (containerChildren s)
       | None => containerChildren s
       end;
     homeNext := homeNext s |}.

Inductive HomeEvent : Type :=
  | HomeFound
  | HomeCleanup.

Definition homeStep (s : HomeState) (e : HomeEvent) : HomeState :=
  match e with
  | HomeFound => homeFound s
  | HomeCleanup => homeCleanup s
  end.

(** Lines 39-57: what the component returns.  [block] is
    [options?.homePage.block]; the result is the container of the portal,
    or [None] for [null]. *)
Definition homeRender (block : option bool) (s : HomeState) : option nat :=
  match homeRoot s, block with
  | Some root, Some true => Some root
  | _, _ => None
  end.

(** ** Part IV: the contest ranking page, [unnamed/part_001] *)

(** A row of the ranking table: its identity and its [className]. *)
Record RankingRow : Type := mkRankingRow {
  rowNode : nat;
  className : string
}.

Record ContestState : Type := mkContestState {
  contestIsMount : bool;
  titleRoot : option nat;
  contestRows : option (list RankingRow)
}.

(** Line 18: the effect starts. *)
Definition contestEffect (s : ContestState) : ContestState :=
  {| contestIsMount := true; titleRoot := titleRoot s; contestRows := contestRows s |}.

(** Lines 20-25: both [findElement] and [findAllElement] have resolved. *)
Definition contestFound (parent : nat) (trs : list RankingRow) (s : ContestState)
    : ContestState :=
  if contestIsMount s then
    {| contestIsMount := true; titleRoot := Some parent; contestRows := Some trs |}
  else s.

(** Lines 27-29: the cleanup. *)
Definition contestCleanup (s : ContestState) : ContestState :=
  {| contestIsMount := false; titleRoot := titleRoot s; contestRows := contestRows s |}.

Inductive ContestEvent : Type :=
  | ContestFound (parent : nat) (trs : list RankingRow)
  | ContestCleanup.

Definition contestStep (s : ContestState) (e : ContestEvent) : ContestState :=
  match e with
  | ContestFound parent trs => contestFound parent trs s
  | ContestCleanup => contestCleanup s
  end.

(** Line 32: [rows?.[0]?.className === 'success' ? true : false]. *)
Definition hasMyRank (rows : option (list RankingRow)) : bool :=
  match rows with
  | Some (first :: _) => bool_decide (className first = "success")
  | _ => false
  end.

(** The two options of [options?.contestRankingPage] that the component
    reads; [None] stands for [undefined]. *)
Record ContestOptions : Type := mkContestOptions {
  ratingPredictor : option bool;
  languageIcon : option bool
}.

(** [!!value] for an optional boolean. *)
Definition truthy (value : option bool) : bool :=
  match value with
  | Some true => true
  | _ => false
  end.

(** What the component mounts: the title cell in the header row, a
    predictor cell in a row, or the language icons of a row. *)
Inductive ContestMounted : Type :=
  | TitleCell (container : nat)
  | ItemCell (container : nat) (row : nat) (myRank : bool)
  | LanguageIconRow (row : RankingRow) (i : nat) (myRank : bool).

(** Lines 32-58. *)
Definition contestRender (options : option ContestOptions) (s : ContestState)
    : list ContestMounted :=
  let myRank := hasMyRank (contestRows s) in
  let showPredictor := truthy (options ≫= ratingPredictor) in
  let showLanguageIcon := truthy (options ≫= languageIcon) in
  (match titleRoot s with
   | Some parent => if showPredictor then [TitleCell parent] else []
   | None => []
   end)
  ++ (if showPredictor then
        match contestRows s with
        | Some rows => imap (λ i row, ItemCell (rowNode row) i myRank) rows
        | None => []
        end
      else [])
  ++ (if showLanguageIcon then
        match contestRows s with
        | Some rows => imap (λ i row, LanguageIconRow row i myRank) rows
        | None => []
        end
      else []).

(** *** A sample page

    Concrete values to run the model on: a rank record type, a query codec
    and a router that are good enough to exercise the handlers, a header
    row and a row group. *)

Record SampleRank : Type := mkSampleRank {
  sampleSlug : string;
  sampleRating : Z
}.

Definition sampleRankSort : Params :=
  {| sorting := None;
     custom := Some {| sort := Some {| orderBy := RANKING; sortOrder := ASCENDING |};
                       rankRange := Some (1200, 1800) |};
     others := [("page", "2")] |}.

Definition sampleAcceptanceSort : Params :=
  {| sorting := Some [ {| orderBy := "AC_RATE"; sortOrder := token 7 |} ];
     custom := Some {| sort := Some {| orderBy := "AC_RATE"; sortOrder := DESCENDING |};
                       rankRange := None |};
     others := [("page", "2")] |}.

Definition samplePlain : Params :=
  {| sorting := None; custom := None; others := [("page", "2")] |}.

Definition sampleParse (l : Location) : Params :=
  if decide (search l = "?page=2&custom=RANKING") then sampleRankSort
  else if decide (search l = "?page=2&custom=AC_RATE") then sampleAcceptanceSort
  else samplePlain.

Definition sampleSerialize (p : Params) : string :=
  "page=2"
  +:+ match sorting p with
      | Some (s :: _) => "&sorting=" +:+ orderBy s
      | _ => ""
      end
  +:+ match custom p with
      | Some _ => "&custom"
      | None => ""
      end.

Fixpoint fromQuestionMark (url : string) : string :=
  match url with
  | EmptyString => ""
  | String c url' => if Ascii.eqb c "?"%char then url else fromQuestionMark url'
  end.

Fixpoint toQuestionMark (url : string) : string :=
  match url with
  | EmptyString => ""
  | String c url' => if Ascii.eqb c "?"%char then "" else String c (toQuestionMark url')
  end.

Definition sampleRoute (url : string) (_ : Location) : Location :=
  {| pathname := toQuestionMark url; search := fromQuestionMark url |}.

(** The feature is on, the popper is mounted and the URL sorts by rank. *)
Definition sampleEnabled : AppState :=
  {| now := 0; enable := true; pos := None;
     popperRef := Some {| right := 900; bottom := 300 |};
     innerWidth := 1280; innerHeight := 720;
     rootDisplay := "block";
     location := {| pathname := "/problemset/all/"; search := "?page=2&custom=RANKING" |};
     timers := []; dispatched := []; navigations := [] |}.

(** The same page with the popper gone. *)
Definition sampleUnmounted : AppState :=
  mkAppState 0 true None None 1280 720 "block"
    {| pathname := "/problemset/all/"; search := "?page=2&custom=RANKING" |} [] [] [].

(** The feature is off. *)
Definition sampleDisabled : AppState :=
  mkAppState 0 false None None 1280 720 "none"
    {| pathname := "/problemset/all/"; search := "?page=2" |} [] [] [].

Definition headerCell (id : nat) (text : string) : Element :=
  {| nodeId := id; textContent := text; kind := HTMLDivElement; stylePadding := "" |}.

Definition sampleSortKeys : list SortKey :=
  [ {| key := "FRONTEND_ID"; title := "题目" |};
    {| key := "AC_RATE"; title := "通过率" |};
    {| key := "DIFFICULTY"; title := "难度" |};
    {| key := "FREQUENCY"; title := "出现频率" |} ].

Definition sampleRowgroup (t : Z) : list Element :=
  if decide (t < 2000) then
    [ headerCell 10 "two-sum"; headerCell 11 "add-two-numbers" ]
  else
    [ headerCell 20 "lru-cache";
      {| nodeId := 21; textContent := ""; kind := OtherHTMLElement; stylePadding := "" |};
      headerCell 22 "word-break" ].

(** Two fulfilled rank-data fetches with a rejected one in between; the
    second delivers a new rating for [two-sum]. *)
Definition sampleActions : list (@Action unit unit SampleRank) :=
  [ fetchProblemRankData pending;
    fetchProblemRankData (fulfilled [ {| sampleSlug := "two-sum"; sampleRating := 1100 |};
                                      {| sampleSlug := "lru-cache"; sampleRating := 1900 |} ]);
    fetchProblemRankData (rejected "NetworkError");
    otherSlice "questions/fetchAllQuestions/rejected";
    fetchProblemRankData (fulfilled [ {| sampleSlug := "two-sum"; sampleRating := 1150 |} ]) ].

(** Twenty mutations, 100 ms apart, from 1000 ms to 2900 ms. *)
Definition sampleBurst : list Z :=
  (λ i : nat, 1000 + 100 * Z.of_nat i) <$> seq 0 20.

(** The effect has run at time 0 on a row group that is a [div], and the
    clock has reached the first mutation of the burst. *)
Definition sampleSync : SyncState :=
  elapse sampleRowgroup 1000
    (rowsEffect sampleRowgroup true (Some (headerCell 1 "")) 0
       {| clock := 0; timeoutId := None; observing := false; rows := [];
          republished := [] |}).

(** No effect has run yet: no observer, no pending call, no rows. *)
Definition sampleIdle : SyncState :=
  {| clock := 0; timeoutId := None; observing := false; rows := [];
     republished := [] |}.

(** The states the two other pages start from. *)
Definition homeInitial : HomeState :=
  {| isMount := false; unmount := None; homeRoot := None;
     containerChildren := [1; 2; 3]%nat; homeNext := 10 |}.

Definition contestInitial : ContestState :=
  {| contestIsMount := false; titleRoot := None; contestRows := None |}.

(** The flag a mounted cell was given, if it is a cell of a row. *)
Definition myRankOf (m : ContestMounted) : option bool :=
  match m with
  | TitleCell _ => None
  | ItemCell _ _ myRank => Some myRank
  | LanguageIconRow _ _ myRank => Some myRank
  end.

(** * Properties *)

(** ** The rank-data store *)

Section GlobalSliceFacts.
Context {GlobalData ProblemsetPageProps ProblemRankData : Type}.
Variable TitleSlug : ProblemRankData → string.

Abbreviation State := (@GlobalState GlobalData ProblemsetPageProps ProblemRankData).
Abbreviation Act := (@Action GlobalData ProblemsetPageProps ProblemRankData).
Abbreviation select := (@selectProblemRankDataByTitleSlug GlobalData ProblemsetPageProps ProblemRankData).

Implicit Types (state : State) (actions : list Act) (payload : list ProblemRankData).

(** Assigning one more record at the end is an insert. *)
Lemma assignAll_snoc payload rank (m : gmap string ProblemRankData) :
  assignAll TitleSlug (payload ++ [rank]) m
  = <[TitleSlug rank := rank]> (assignAll TitleSlug payload m).
Proof. unfold assignAll. by rewrite foldl_snoc. Qed.

(** After the records of a list are assigned, a slug maps to the last
    record of the list that carries it, and to what it mapped to before if
    there is none. *)
Lemma assignAll_lookup payload (m : gmap string ProblemRankData) slug :
  assignAll TitleSlug payload m !! slug
  = match last (withSlug TitleSlug slug payload) with
    | Some rank => Some rank
    | None => m !! slug
    end.
Proof.
  induction payload as [|rank payload IH] using rev_ind; [done|].
  rewrite assignAll_snoc. unfold withSlug in *. rewrite filter_app.
  destruct (decide (TitleSlug rank = slug)) as [Heq|Hne].
  - rewrite (filter_cons_True _ rank), filter_nil by done.
    rewrite last_snoc. subst slug. apply lookup_insert_eq.
  - rewrite (filter_cons_False _ rank), filter_nil by done.
    rewrite app_nil_r, lookup_insert_ne by done. apply IH.
Qed.

Lemma assignAll_dom payload (m : gmap string ProblemRankData) :
  dom (assignAll TitleSlug payload m) = list_to_set (TitleSlug <$> payload) ∪ dom m.
Proof.
  induction payload as [|rank payload IH] using rev_ind.
  - simpl. set_solver.
  - rewrite assignAll_snoc, dom_insert_L, IH, fmap_app, list_to_set_app_L. simpl.
    set_solver.
Qed.

Lemma assignAll_app payload payload' (m : gmap string ProblemRankData) :
  assignAll TitleSlug (payload ++ payload') m
  = assignAll TitleSlug payload' (assignAll TitleSlug payload m).
Proof. unfold assignAll. by rewrite foldl_app. Qed.

(** The loop takes a payload without the slug [__proto__] and assigns
    every record of it. *)
Lemma storeRanks_accepted payload (m : gmap string ProblemRankData) :
  accepted TitleSlug payload →
  storeRanks TitleSlug payload m = Ok (assignAll TitleSlug payload m).
Proof.
  unfold accepted. revert m. induction payload as [|rank payload IH]; intros m Hacc; [done|].
  rewrite fmap_cons in Hacc. apply not_elem_of_cons in Hacc as [Hne Hacc].
  simpl. rewrite decide_False by done. by rewrite IH.
Qed.

(** The loop throws on a payload with the slug [__proto__], whatever the
    store holds. *)
Lemma storeRanks_throws payload (m : gmap string ProblemRankData) :
  ¬ accepted TitleSlug payload → storeRanks TitleSlug payload m = Throw "Error".
Proof.
  unfold accepted. revert m. induction payload as [|rank payload IH]; intros m Hin.
  - exfalso. apply Hin. apply not_elem_of_nil.
  - simpl. case_decide as Heq; [done|]. apply IH. intros Hnot. apply Hin.
    rewrite fmap_cons. apply not_elem_of_cons. split; [done|exact Hnot].
Qed.

Lemma dispatchAll_cons state a actions :
  dispatchAll TitleSlug state (a :: actions)
  = dispatchAll TitleSlug (storeDispatch TitleSlug state a) actions.
Proof. done. Qed.

Lemma storedRanks_cons (a : Act) actions :
  storedRanks TitleSlug (a :: actions)
  = match a with
    | fetchProblemRankData (fulfilled payload) =>
        if decide (accepted TitleSlug payload) then payload else []
    | _ => []
    end ++ storedRanks TitleSlug actions.
Proof.
  destruct a as [[]|[]|[| payload |]|]; try done.
  unfold storedRanks. simpl. by case_decide.
Qed.

(** What dispatching one action does to the rank map. *)
Lemma storeDispatch_rankDataMap state (a : Act) :
  rankDataMap (storeDispatch TitleSlug state a)
  = match a with
    | fetchProblemRankData (fulfilled payload) =>
        if decide (accepted TitleSlug payload)
        then assignAll TitleSlug payload (rankDataMap state)
        else rankDataMap state
    | _ => rankDataMap state
    end.
Proof.
  unfold storeDispatch. destruct a as [[]|[]|[| payload |]|]; try done.
  simpl. case_decide as Hacc.
  - by rewrite storeRanks_accepted.
  - by rewrite storeRanks_throws.
Qed.

(** What a run of actions does to the rank map is what assigning the
    records of the payloads taken, in order, does. *)
Lemma dispatchAll_rankDataMap state actions :
  rankDataMap (dispatchAll TitleSlug state actions)
  = assignAll TitleSlug (storedRanks TitleSlug actions) (rankDataMap state).
Proof.
  revert state. induction actions as [|a actions IH]; intros state; [done|].
  rewrite dispatchAll_cons, IH, storedRanks_cons, assignAll_app, storeDispatch_rankDataMap.
  destruct a as [[]|[]|[| payload |]|]; try done. by case_decide.
Qed.

(** No stored record sits under the key [__proto__]. *)
Lemma storedRanks_no_proto actions :
  "__proto__" ∉ TitleSlug <$> storedRanks TitleSlug actions.
Proof.
  induction actions as [|a actions IH]; [apply not_elem_of_nil|].
  rewrite storedRanks_cons, fmap_app, not_elem_of_app. split; [|done].
  destruct a as [[]|[]|[| payload |]|]; try apply not_elem_of_nil.
  case_decide; [done|apply not_elem_of_nil].
Qed.

(** C9: a rejected rank-data fetch is turned into actions that the slice
    does not handle, and so is every action of another slice, such as a
    rejected question-list fetch: the reducer returns a state, and that
    state is the one it was given, rank map and selector results included. *)
Theorem rejected_fetch_keeps_state state (reason type : string) :
  dispatchAll TitleSlug state (thunkActions fetchProblemRankData (Reject reason)) = state
  ∧ reducer TitleSlug state (fetchProblemRankData (rejected reason)) = Ok state
  ∧ reducer TitleSlug state (otherSlice type) = Ok state
  ∧ ∀ slug,
      select {| global :=
                 dispatchAll TitleSlug state
                   (thunkActions fetchProblemRankData (Reject reason)) |} slug
      = select {| global := state |} slug.
Proof. done. Qed.


End GlobalSliceFacts.

Example sampleActions_two_sum :
  selectProblemRankDataByTitleSlug
    {| global := dispatchAll sampleSlug initialState sampleActions |} "two-sum"
  = own {| sampleSlug := "two-sum"; sampleRating := 1150 |}.
Proof. by vm_compute. Qed.

Example sampleActions_lru_cache :
  selectProblemRankDataByTitleSlug
    {| global := dispatchAll sampleSlug initialState sampleActions |} "lru-cache"
  = own {| sampleSlug := "lru-cache"; sampleRating := 1900 |}.
Proof. by vm_compute. Qed.

Example sampleActions_word_break :
  selectProblemRankDataByTitleSlug
    {| global := dispatchAll sampleSlug initialState sampleActions |} "word-break"
  = undefined.
Proof. by vm_compute. Qed.


(** ** The URL written on disable *)

(** Whatever the parameters are, none of the custom ones survives. *)
Lemma clearCustom_custom (params : Params) : custom (clearCustom params) = None.
Proof. unfold clearCustom. by destruct (custom params) eqn:E. Qed.

Lemma clearCustom_others (params : Params) :
  others (clearCustom params) = others params.
Proof. unfold clearCustom. by destruct (custom params). Qed.

(** With a custom block that sorts by rank, no sort survives. *)
Lemma clearCustom_ranking (params : Params) c s :
  custom params = Some c → sort c = Some s → orderBy s = RANKING →
  clearCustom params = {| sorting := None; custom := None; others := others params |}.
Proof.
  intros Hc Hs Hr. unfold clearCustom. rewrite Hc, Hs.
  by rewrite decide_False by (intros Hne; by apply Hne).
Qed.

(** With a custom block that sorts by another column, that sort is moved
    to [sorting] as it is. *)
Lemma clearCustom_other_column (params : Params) c s :
  custom params = Some c → sort c = Some s → orderBy s ≠ RANKING →
  clearCustom params = {| sorting := Some [s]; custom := None; others := others params |}.
Proof.
  intros Hc Hs Hr. unfold clearCustom. rewrite Hc, Hs. by rewrite decide_True.
Qed.

(** Without a custom block the parameters are left alone. *)
Lemma clearCustom_no_custom (params : Params) :
  custom params = None → clearCustom params = params.
Proof. intros Hc. unfold clearCustom. by rewrite Hc. Qed.

(** ** Switching the rank column off and on *)

(** What a successful [handleDisable] leaves behind. *)
Lemma handleDisable_mounted (st : AppState) (rect : DOMRect) :
  popperRef st = Some rect →
  ∃ st1, handleDisable st = Ok st1
    ∧ now st1 = now st
    ∧ enable st1 = false
    ∧ pos st1 = Some {| posRight := innerWidth st - right rect;
                        posBottom := innerHeight st - bottom rect |}
    ∧ popperRef st1 = Some rect
    ∧ location st1 = location st
    ∧ timers st1 = enqueue (now st + 500) (timers st)
    ∧ navigations st1 = navigations st
    ∧ dispatched st1 = dispatched st ++ [disableProblemRating]
    ∧ rootDisplay st1 = (if enable st then "none" else rootDisplay st)%string.
Proof.
  intros Hp. unfold handleDisable. rewrite Hp. eexists. split; [reflexivity|].
  destruct st as [t [] p r w h d l q ds ns]; simpl in *; subst; by repeat split.
Qed.

(** A deadline that is not earlier than any pending one goes to the back
    of the queue. *)
Lemma enqueue_back (d : Z) (q : list Z) :
  Forall (λ x, x ≤ d) q → enqueue d q = q ++ [d].
Proof.
  induction 1 as [|x q Hx _ IH]; [done|].
  simpl. by rewrite decide_True, IH.
Qed.

Section AppFacts.
Variable parseParams : Location → Params.
Variable serializationPrams : Params → string.
Variable hostRoute : string → Location → Location.

Abbreviation fireDue := (fireDue parseParams serializationPrams hostRoute).
Abbreviation advance := (advance parseParams serializationPrams hostRoute).
Abbreviation disableCallback := (disableCallback parseParams serializationPrams hostRoute).
Abbreviation disableUrl := (disableUrl parseParams serializationPrams).

Lemma disableCallback_navigations (st : AppState) :
  navigations (disableCallback st) = navigations st ++ [disableUrl (location st)].
Proof. done. Qed.

(** Firing timers touches the clock, the location, the queue and the
    navigation log, and nothing else. *)
Lemma fireDue_frame (t : Z) (q : list Z) (st : AppState) :
  let st' := fireDue t q st in
  enable st' = enable st ∧ pos st' = pos st ∧ popperRef st' = popperRef st
  ∧ innerWidth st' = innerWidth st ∧ innerHeight st' = innerHeight st
  ∧ rootDisplay st' = rootDisplay st ∧ dispatched st' = dispatched st.
Proof.
  revert st. induction q as [|d q IH]; intros st; simpl; [done|].
  case_decide; [|done].
  specialize (IH (disableCallback (setTimers q (setNow (now st `max` d) st)))).
  simpl in IH. exact IH.
Qed.

(** The clock never runs past the instant the queue is fired for. *)
Lemma fireDue_now (t : Z) (q : list Z) (st : AppState) :
  now st ≤ t → now (fireDue t q st) ≤ t.
Proof.
  revert st. induction q as [|d q IH]; intros st Hle; simpl; [done|].
  case_decide; [|done]. apply IH. simpl. lia.
Qed.

(** A prefix of the queue fires, one navigation for each of its timers,
    and the rest stays queued. *)
Lemma fireDue_prefix (t : Z) (q : list Z) (st : AppState) :
  timers st = q →
  ∃ k : nat, (k ≤ length q)%nat
    ∧ length (navigations (fireDue t q st)) = (length (navigations st) + k)%nat
    ∧ timers (fireDue t q st) = drop k q.
Proof.
  revert st. induction q as [|d q IH]; intros st Hq; simpl.
  - exists 0%nat. rewrite Hq. split_and!; [done|lia|done].
  - case_decide.
    + destruct (IH (disableCallback (setTimers q (setNow (now st `max` d) st))))
        as (k & Hk & Hn & Hq'); [done|].
      exists (S k). split_and!; [simpl; lia| |done].
      rewrite Hn. simpl. rewrite length_app. simpl. lia.
    + exists 0%nat. simpl. rewrite Hq. split_and!; [lia|lia|done].
Qed.

(** When every pending timer is due, all of them fire. *)
Lemma fireDue_all (t : Z) (q : list Z) (st : AppState) :
  timers st = q → Forall (λ d, d ≤ t) q →
  length (navigations (fireDue t q st)) = (length (navigations st) + length q)%nat
  ∧ timers (fireDue t q st) = [].
Proof.
  revert st. induction q as [|d q IH]; intros st Hq Hall; simpl.
  - split; [lia|done].
  - apply Forall_cons in Hall as [Hd Hall]. rewrite decide_True by done.
    destruct (IH (disableCallback (setTimers q (setNow (now st `max` d) st))))
      as [Hn Hq']; [done|done|].
    split; [|done]. rewrite Hn. simpl. rewrite length_app. simpl. lia.
Qed.

(** When the first pending timer is not due, nothing happens. *)
Lemma fireDue_early (t d : Z) (q : list Z) (st : AppState) :
  t < d → fireDue t (d :: q) st = st.
Proof. intros Hlt. simpl. by rewrite decide_False by lia. Qed.

Lemma advance_now (t : Z) (st : AppState) :
  now st ≤ t → now (advance t st) = t.
Proof.
  intros Hle. unfold advance. simpl.
  pose proof (fireDue_now t (timers st) st Hle). lia.
Qed.

Lemma advance_frame (t : Z) (st : AppState) :
  let st' := advance t st in
  enable st' = enable st ∧ pos st' = pos st ∧ popperRef st' = popperRef st
  ∧ innerWidth st' = innerWidth st ∧ innerHeight st' = innerHeight st
  ∧ rootDisplay st' = rootDisplay st ∧ dispatched st' = dispatched st.
Proof. unfold advance. simpl. apply fireDue_frame. Qed.

Lemma advance_navigations (t : Z) (st : AppState) :
  navigations (advance t st) = navigations (fireDue t (timers st) st).
Proof. done. Qed.

Lemma advance_timers (t : Z) (st : AppState) :
  timers (advance t st) = timers (fireDue t (timers st) st).
Proof. done. Qed.

(** One disable with nothing else pending: nothing is navigated to before
    the delay is over, and once it is, the callback has navigated once, to
    the URL computed from the location at the time. *)
Lemma disable_then_wait (st : AppState) (rect : DOMRect) :
  popperRef st = Some rect → timers st = [] →
  ∃ st1, handleDisable st = Ok st1
    ∧ (∀ t, t < now st + 500 → navigations (advance t st1) = navigations st)
    ∧ (∀ t, now st + 500 ≤ t →
         navigations (advance t st1) = navigations st ++ [disableUrl (location st)]).
Proof.
  intros Hp Hq.
  destruct (handleDisable_mounted st rect Hp)
    as (st1 & Hok & Hnow & _ & _ & _ & Hloc & Htm & Hnav & _).
  exists st1. split; [done|]. rewrite Hq in Htm. simpl in Htm.
  split; intros t Ht; rewrite advance_navigations, Htm.
  - by rewrite fireDue_early.
  - simpl. rewrite decide_True by done. simpl. by rewrite Hnav, Hloc.
Qed.

Lemma handleEnable_frame (st : AppState) :
  let st' := handleEnable st in
  now st' = now st ∧ enable st' = true ∧ popperRef st' = popperRef st
  ∧ location st' = location st ∧ timers st' = timers st
  ∧ navigations st' = navigations st.
Proof. destruct st as [t [] p r w h d l q ds ns]; by repeat split. Qed.

(** The bound on the pending deadlines holds in the states the handlers
    and the clock lead to. *)
Lemma fireDue_now_mono (t : Z) (q : list Z) (st : AppState) :
  now st ≤ now (fireDue t q st).
Proof.
  revert st. induction q as [|d q IH]; intros st; simpl; [done|].
  case_decide; [|done]. etrans; [|apply IH]. simpl. lia.
Qed.

Lemma handleDisable_deadlinesBounded (st st1 : AppState) :
  deadlinesBounded st → handleDisable st = Ok st1 → deadlinesBounded st1.
Proof.
  unfold deadlinesBounded. intros Hb Hok.
  destruct (popperRef st) as [rect|] eqn:Hp.
  - destruct (handleDisable_mounted st rect Hp) as (st1' & Hok' & Hnow & _ & _ & _ & _ & Htm & _).
    rewrite Hok in Hok'. injection Hok' as <-.
    rewrite Htm, Hnow, enqueue_back by done.
    apply Forall_app. split; [done|]. by apply Forall_singleton.
  - unfold handleDisable in Hok. by rewrite Hp in Hok.
Qed.

Lemma handleEnable_deadlinesBounded (st : AppState) :
  deadlinesBounded st → deadlinesBounded (handleEnable st).
Proof.
  unfold deadlinesBounded. intros Hb.
  destruct (handleEnable_frame st) as (-> & _ & _ & _ & -> & _). done.
Qed.

Lemma advance_deadlinesBounded (t : Z) (st : AppState) :
  deadlinesBounded st → deadlinesBounded (advance t st).
Proof.
  unfold deadlinesBounded. intros Hb.
  destruct (fireDue_prefix t (timers st) st eq_refl) as (k & _ & _ & Hrest).
  rewrite advance_timers, Hrest. apply Forall_drop.
  eapply Forall_impl; [exact Hb|]. simpl. intros d Hd.
  pose proof (fireDue_now_mono t (timers st) st).
  unfold advance. simpl. lia.
Qed.

(** C1, as the code has it: [handleDisable] keeps no timer id and checks
    for no pending call, so each call queues a navigation of its own.  Two
    calls less than 500 ms apart, with the popper still mounted, are
    followed by two navigations once the second delay is over, on top of
    one for every timer that was already pending; with nothing pending
    before, the queue holds the two deadlines and the log grows by the URL
    computed at each firing. *)
Theorem deactivate_twice_navigates_twice (st : AppState) (rect : DOMRect) (t2 t : Z) :
  popperRef st = Some rect →
  deadlinesBounded st →
  now st ≤ t2 < now st + 500 →
  t2 + 500 ≤ t →
  ∃ st1 st2,
    handleDisable st = Ok st1
    ∧ handleDisable (advance t2 st1) = Ok st2
    ∧ length (navigations (advance t st2))
      = (length (navigations st) + length (timers st) + 2)%nat
    ∧ timers (advance t st2) = []
    ∧ (timers st = [] →
       timers st2 = [now st + 500; t2 + 500]
       ∧ navigations (advance t st2)
         = navigations st
           ++ [ disableUrl (location st);
                disableUrl (hostRoute (disableUrl (location st)) (location st)) ]).
Proof.
  intros Hp Hq Ht2 Ht.
  destruct (handleDisable_mounted st rect Hp)
    as (st1 & Hok1 & Hnow1 & _ & _ & Hp1 & Hloc1 & Htm1 & Hnav1 & _).
  rewrite enqueue_back in Htm1 by done.
  pose proof (advance_now t2 st1 ltac:(lia)) as Hnowa.
  destruct (advance_frame t2 st1) as (_ & _ & Hpa & _).
  rewrite Hp1 in Hpa.
  destruct (handleDisable_mounted (advance t2 st1) rect Hpa)
    as (st2 & Hok2 & Hnow2 & _ & _ & _ & Hloc2 & Htm2 & Hnav2 & _).
  exists st1, st2. split_and!; [done|done| | |].
  - destruct (fireDue_prefix t2 (timers st1) st1 eq_refl) as (k & Hk & Hn & Hrest).
    rewrite advance_timers, Hrest, Hnowa in Htm2.
    assert (Hall : Forall (λ d, d ≤ t2 + 500) (drop k (timers st1))).
    { apply Forall_drop. rewrite Htm1. apply Forall_app. split.
      - eapply Forall_impl; [exact Hq|]. simpl. intros; lia.
      - apply Forall_singleton. lia. }
    rewrite enqueue_back in Htm2 by done.
    destruct (fireDue_all t (timers st2) st2 eq_refl) as [Hlen _].
    { rewrite Htm2. apply Forall_app. split.
      - eapply Forall_impl; [exact Hall|]. simpl. intros; lia.
      - apply Forall_singleton. lia. }
    rewrite advance_navigations, Hlen, Hnav2, advance_navigations, Hn, Hnav1, Htm2.
    rewrite length_app, length_drop, Htm1, length_app. simpl.
    rewrite Htm1, length_app in Hk. simpl in Hk. lia.
  - destruct (fireDue_prefix t2 (timers st1) st1 eq_refl) as (k & Hk & Hn & Hrest).
    rewrite advance_timers, Hrest, Hnowa in Htm2.
    assert (Hall : Forall (λ d, d ≤ t2 + 500) (drop k (timers st1))).
    { apply Forall_drop. rewrite Htm1. apply Forall_app. split.
      - eapply Forall_impl; [exact Hq|]. simpl. intros; lia.
      - apply Forall_singleton. lia. }
    rewrite enqueue_back in Htm2 by done.
    rewrite advance_timers.
    apply (fireDue_all t (timers st2) st2 eq_refl).
    rewrite Htm2. apply Forall_app. split.
    + eapply Forall_impl; [exact Hall|]. simpl. intros; lia.
    + apply Forall_singleton. lia.
  - intros Hnil. rewrite Hnil in Htm1. simpl in Htm1.
    assert (Hsame : advance t2 st1 = setNow t2 st1).
    { unfold advance. rewrite Htm1, fireDue_early by lia.
      f_equal. lia. }
    rewrite Hsame in Htm2, Hloc2, Hnav2. simpl in Htm2, Hloc2, Hnav2.
    rewrite Htm1 in Htm2. simpl in Htm2.
    rewrite decide_True in Htm2 by lia.
    split; [done|].
    rewrite advance_navigations, Htm2. simpl.
    rewrite !decide_True by lia. simpl.
    rewrite Hnav2, Hnav1, Hloc2, Hloc1, <-!(assoc_L (++)). done.
Qed.

(** C3, as the code has it: [handleEnable] only dispatches
    [enableProblemRating].  An activation before the delay of a pending
    deactivation is over switches the feature on again and leaves the timer
    queued, and the navigation fires when the delay is over: the log grows
    by one entry for that timer (and one for every timer pending before),
    and with nothing pending before, by exactly the URL of that
    deactivation. *)
Theorem activate_keeps_pending_navigation (st : AppState) (rect : DOMRect) (t2 t : Z) :
  popperRef st = Some rect →
  deadlinesBounded st →
  now st ≤ t2 < now st + 500 →
  now st + 500 ≤ t →
  ∃ st1,
    handleDisable st = Ok st1
    ∧ let st2 := handleEnable (advance t2 st1) in
      enable st2 = true
      ∧ now st + 500 ∈ timers st2
      ∧ length (navigations (advance t st2))
        = (length (navigations st) + length (timers st) + 1)%nat
      ∧ timers (advance t st2) = []
      ∧ (timers st = [] →
         navigations (advance t st2) = navigations st ++ [disableUrl (location st)]).
Proof.
  intros Hp Hq Ht2 Ht.
  destruct (handleDisable_mounted st rect Hp)
    as (st1 & Hok1 & Hnow1 & _ & _ & Hp1 & Hloc1 & Htm1 & Hnav1 & _).
  rewrite enqueue_back in Htm1 by done.
  exists st1. split; [done|]. intros st2.
  destruct (handleEnable_frame (advance t2 st1))
    as (Hnow2 & Hen2 & _ & Hloc2 & Htm2 & Hnav2).
  fold st2 in Hnow2, Hen2, Hloc2, Htm2, Hnav2.
  destruct (fireDue_prefix t2 (timers st1) st1 eq_refl) as (k & Hk & Hn & Hrest).
  rewrite advance_timers, Hrest in Htm2.
  rewrite advance_navigations in Hnav2.
  assert (Hkq : (k ≤ length (timers st))%nat).
  { (* the new timer is not due at [t2], so it is not among the [k] fired *)
    destruct (decide (k ≤ length (timers st))%nat) as [|Hgt]; [done|].
    exfalso.
    assert (Hk' : k = S (length (timers st))).
    { rewrite Htm1, length_app in Hk. simpl in Hk. lia. }
    clear Hgt Hk Hrest Htm2.
    assert (Hfired : ∀ (q : list Z) (s : AppState),
      length (navigations (fireDue t2 q s)) = (length (navigations s) + length q)%nat →
      Forall (λ d, d ≤ t2) q).
    { induction q as [|d q IH]; intros s Hlen; [done|].
      simpl in Hlen. case_decide; [|simpl in Hlen; lia].
      constructor; [done|]. eapply IH. rewrite Hlen. simpl.
      rewrite length_app. simpl. lia. }
    specialize (Hfired (timers st1) st1).
    rewrite Hn, Hk', Htm1, length_app in Hfired. simpl in Hfired.
    specialize (Hfired ltac:(lia)).
    rewrite Forall_app, Forall_singleton in Hfired.
    destruct Hfired as [_ Hlast]. lia. }
  assert (Hall : Forall (λ d, d ≤ t) (timers st2)).
  { rewrite Htm2. apply Forall_drop. rewrite Htm1. apply Forall_app. split.
    - eapply Forall_impl; [exact Hq|]. simpl. intros; lia.
    - apply Forall_singleton. lia. }
  destruct (fireDue_all t (timers st2) st2 eq_refl Hall) as [Hlen Hnone].
  split_and!; [done| | |done|].
  - rewrite Htm2, Htm1, drop_app_le by done. set_solver.
  - rewrite advance_navigations, Hlen, Hnav2, Hn, Hnav1, Htm2.
    rewrite length_drop, Htm1, length_app. simpl. lia.
  - intros Hnil. rewrite Hnil in Htm1. simpl in Htm1.
    rewrite Hnil in Hkq. simpl in Hkq. assert (k = 0%nat) as -> by lia.
    rewrite Htm1 in Htm2. simpl in Htm2.
    rewrite advance_navigations, Htm2. simpl.
    rewrite decide_True by lia. simpl.
    assert (Hsame : advance t2 st1 = setNow t2 st1).
    { unfold advance. rewrite Htm1, fireDue_early by lia. f_equal. lia. }
    subst st2. rewrite Hsame.
    destruct st1 as [t1 [] p1 r1 w1 h1 d1 l1 q1 ds1 ns1]; simpl in *; by subst.
Qed.

(** C2, as the code has it: when the custom sort names a column other than
    rank, the callback moves that very sort into [sorting], direction
    included, and removes the custom block; the URL navigated to once the
    delay is over is the serialization of those parameters. *)
Theorem disable_keeps_custom_sort (st : AppState) (rect : DOMRect) (c : Custom) (s : Sorting) :
  popperRef st = Some rect →
  timers st = [] →
  custom (parseParams (location st)) = Some c →
  sort c = Some s →
  orderBy s ≠ RANKING →
  let params := clearCustom (parseParams (location st)) in
  sorting params = Some [s]
  ∧ custom params = None
  ∧ others params = others (parseParams (location st))
  ∧ ∃ st1, handleDisable st = Ok st1
      ∧ ∀ t, now st + 500 ≤ t →
          navigations (advance t st1)
          = navigations st
            ++ [ pathname (location st) +:+ "?"
                 +:+ serializationPrams
                       {| sorting := Some [s]; custom := None;
                          others := others (parseParams (location st)) |} ].
Proof.
  intros Hp Hq Hc Hs Hne params.
  pose proof (clearCustom_other_column _ c s Hc Hs Hne) as Hclear.
  unfold params. rewrite Hclear. split_and!; [done..|].
  destruct (disable_then_wait st rect Hp Hq) as (st1 & Hok & _ & Hafter).
  exists st1. split; [done|]. intros t Ht.
  rewrite (Hafter t Ht). unfold disableUrl. by rewrite Hclear.
Qed.

(** C4: when the custom sort is the rank sort, the parameters serialized
    after the settle delay have neither [custom] nor [sorting] and keep
    every other parameter; nothing is navigated to before the delay is
    over; and whatever the parameters are, the callback leaves no custom
    block, hence no [rankRange], behind. *)
Theorem disable_rank_sort_clears_url (st : AppState) (rect : DOMRect) (c : Custom) (s : Sorting) :
  popperRef st = Some rect →
  timers st = [] →
  custom (parseParams (location st)) = Some c →
  sort c = Some s →
  orderBy s = RANKING →
  let params := clearCustom (parseParams (location st)) in
  sorting params = None
  ∧ custom params = None
  ∧ others params = others (parseParams (location st))
  ∧ (∀ anyParams, custom (clearCustom anyParams) = None)
  ∧ ∃ st1, handleDisable st = Ok st1
      ∧ (∀ t, t < now st + 500 → navigations (advance t st1) = navigations st)
      ∧ (∀ t, now st + 500 ≤ t →
          navigations (advance t st1)
          = navigations st
            ++ [ pathname (location st) +:+ "?"
                 +:+ serializationPrams
                       {| sorting := None; custom := None;
                          others := others (parseParams (location st)) |} ]).
Proof.
  intros Hp Hq Hc Hs Hr params.
  pose proof (clearCustom_ranking _ c s Hc Hs Hr) as Hclear.
  unfold params. rewrite Hclear.
  split_and!; [done..|apply clearCustom_custom|].
  destruct (disable_then_wait st rect Hp Hq) as (st1 & Hok & Hbefore & Hafter).
  exists st1. split_and!; [done|done|]. intros t Ht.
  rewrite (Hafter t Ht). unfold disableUrl. by rewrite Hclear.
Qed.

End AppFacts.

(** [handleDisable] reads the rectangle through [popperRef.current!]
    before anything else and has no other way to a position: with the ref
    at [null] the call throws. *)
Lemma disable_unmounted_throws (st : AppState) :
  popperRef st = None →
  handleDisable st = Throw "TypeError" ∧ ¬ ∃ st', handleDisable st = Ok st'.
Proof.
  intros Hp. unfold handleDisable. rewrite Hp. split; [done|]. by intros [st' ?].
Qed.

(** C8: an activation from the disabled state sets the flag, requests the
    rank data and the question list, and shows the overlay root; it calls
    the navigation primitive not at all, and leaves the location and the
    timer queue as they were. *)
Theorem activate_fetches_and_shows (st : AppState) :
  enable st = false →
  let st' := handleEnable st in
  enable st' = true
  ∧ dispatched st'
    = dispatched st ++ [enableProblemRating; fetchProblemRankDataThunk; fetchAllQuestions]
  ∧ rootDisplay st' = "block"
  ∧ navigations st' = navigations st
  ∧ location st' = location st
  ∧ timers st' = timers st.
Proof.
  intros He. destruct st as [t e p r w h d l q ds ns]. simpl in He. subst e.
  unfold handleEnable, commit, enableEffect, dispatch. simpl.
  rewrite <-!(assoc_L (++)). by repeat split.
Qed.

(** *** The sample page, run *)

Lemma deactivate_twice_navigates_twice_sample :
  ∃ st1 st2,
    handleDisable sampleEnabled = Ok st1
    ∧ handleDisable (advance sampleParse sampleSerialize sampleRoute 100 st1) = Ok st2
    ∧ length (navigations (advance sampleParse sampleSerialize sampleRoute 700 st2))
      = (length (navigations sampleEnabled) + length (timers sampleEnabled) + 2)%nat
    ∧ timers (advance sampleParse sampleSerialize sampleRoute 700 st2) = []
    ∧ (timers sampleEnabled = [] →
       timers st2 = [now sampleEnabled + 500; 100 + 500]
       ∧ navigations (advance sampleParse sampleSerialize sampleRoute 700 st2)
         = navigations sampleEnabled
           ++ [ disableUrl sampleParse sampleSerialize (location sampleEnabled);
                disableUrl sampleParse sampleSerialize
                  (sampleRoute (disableUrl sampleParse sampleSerialize (location sampleEnabled))
                     (location sampleEnabled)) ]).
Proof.
  apply (deactivate_twice_navigates_twice sampleParse sampleSerialize sampleRoute
           sampleEnabled {| right := 900; bottom := 300 |} 100 700).
  - reflexivity.
  - constructor.
  - simpl. lia.
  - lia.
Defined.

(** Two clicks on the close button, 100 ms apart: the router is called
    twice. *)
Lemma deactivate_twice_two_navigations :
  ∃ st1 st2,
    handleDisable sampleEnabled = Ok st1
    ∧ handleDisable (advance sampleParse sampleSerialize sampleRoute 100 st1) = Ok st2
    ∧ navigations (advance sampleParse sampleSerialize sampleRoute 700 st2)
      = [ "/problemset/all/?page=2"; "/problemset/all/?page=2" ]
    ∧ length (navigations (advance sampleParse sampleSerialize sampleRoute 700 st2)) ≠ 1%nat.
Proof.
  eexists _, _. split_and!; [reflexivity|reflexivity|by vm_compute|by vm_compute].
Qed.

Lemma activate_keeps_pending_navigation_sample :
  ∃ st1,
    handleDisable sampleEnabled = Ok st1
    ∧ let st2 := handleEnable (advance sampleParse sampleSerialize sampleRoute 100 st1) in
      enable st2 = true
      ∧ now sampleEnabled + 500 ∈ timers st2
      ∧ length (navigations (advance sampleParse sampleSerialize sampleRoute 500 st2))
        = (length (navigations sampleEnabled) + length (timers sampleEnabled) + 1)%nat
      ∧ timers (advance sampleParse sampleSerialize sampleRoute 500 st2) = []
      ∧ (timers sampleEnabled = [] →
         navigations (advance sampleParse sampleSerialize sampleRoute 500 st2)
         = navigations sampleEnabled
           ++ [disableUrl sampleParse sampleSerialize (location sampleEnabled)]).
Proof.
  apply (activate_keeps_pending_navigation sampleParse sampleSerialize sampleRoute
           sampleEnabled {| right := 900; bottom := 300 |} 100 500).
  - reflexivity.
  - constructor.
  - simpl. lia.
  - simpl. lia.
Defined.

(** A click on the close button, then on the open button 100 ms later:
    the feature is on again, and at 500 ms the router is called all the
    same. *)
Lemma activate_does_not_cancel :
  ∃ st1,
    handleDisable sampleEnabled = Ok st1
    ∧ let st2 := handleEnable (advance sampleParse sampleSerialize sampleRoute 100 st1) in
      enable st2 = true
      ∧ navigations st2 = []
      ∧ navigations (advance sampleParse sampleSerialize sampleRoute 500 st2)
        = [ "/problemset/all/?page=2" ]
      ∧ navigations (advance sampleParse sampleSerialize sampleRoute 500 st2)
        ≠ navigations st2.
Proof.
  eexists. split; [reflexivity|]. by vm_compute.
Qed.

(** The custom sort is by acceptance, descending: that is the sort, and
    the direction, left in [sorting]. *)
Lemma disable_keeps_descending :
  custom sampleAcceptanceSort
  = Some {| sort := Some {| orderBy := "AC_RATE"; sortOrder := DESCENDING |};
            rankRange := None |}
  ∧ sorting (clearCustom sampleAcceptanceSort)
    = Some [ {| orderBy := "AC_RATE"; sortOrder := DESCENDING |} ]
  ∧ ¬ (∀ s l, sorting (clearCustom sampleAcceptanceSort) = Some l → s ∈ l →
         sortOrder s = ASCENDING).
Proof.
  split_and!; [done|by vm_compute|].
  intros Hall.
  specialize (Hall {| orderBy := "AC_RATE"; sortOrder := DESCENDING |} _ eq_refl).
  discriminate Hall. by left.
Qed.

Lemma disable_keeps_custom_sort_sample :
  let st := setLocation {| pathname := "/problemset/all/";
                           search := "?page=2&custom=AC_RATE" |} sampleEnabled in
  let s := {| orderBy := "AC_RATE"; sortOrder := DESCENDING |} in
  let params := clearCustom (sampleParse (location st)) in
  sorting params = Some [s]
  ∧ custom params = None
  ∧ others params = others (sampleParse (location st))
  ∧ ∃ st1, handleDisable st = Ok st1
      ∧ ∀ t, now st + 500 ≤ t →
          navigations (advance sampleParse sampleSerialize sampleRoute t st1)
          = navigations st
            ++ [ pathname (location st) +:+ "?"
                 +:+ sampleSerialize
                       {| sorting := Some [s]; custom := None;
                          others := others (sampleParse (location st)) |} ].
Proof.
  apply (disable_keeps_custom_sort sampleParse sampleSerialize sampleRoute
           (setLocation {| pathname := "/problemset/all/";
                           search := "?page=2&custom=AC_RATE" |} sampleEnabled)
           {| right := 900; bottom := 300 |}
           {| sort := Some {| orderBy := "AC_RATE"; sortOrder := DESCENDING |};
              rankRange := None |}).
  - reflexivity.
  - reflexivity.
  - reflexivity.
  - reflexivity.
  - by vm_compute.
Defined.

Lemma disable_rank_sort_clears_url_sample :
  let st := sampleEnabled in
  let params := clearCustom (sampleParse (location st)) in
  sorting params = None
  ∧ custom params = None
  ∧ others params = others (sampleParse (location st))
  ∧ (∀ anyParams, custom (clearCustom anyParams) = None)
  ∧ ∃ st1, handleDisable st = Ok st1
      ∧ (∀ t, t < now st + 500 →
           navigations (advance sampleParse sampleSerialize sampleRoute t st1)
           = navigations st)
      ∧ (∀ t, now st + 500 ≤ t →
          navigations (advance sampleParse sampleSerialize sampleRoute t st1)
          = navigations st
            ++ [ pathname (location st) +:+ "?"
                 +:+ sampleSerialize
                       {| sorting := None; custom := None;
                          others := others (sampleParse (location st)) |} ]).
Proof.
  apply (disable_rank_sort_clears_url sampleParse sampleSerialize sampleRoute
           sampleEnabled {| right := 900; bottom := 300 |}
           {| sort := Some {| orderBy := RANKING; sortOrder := ASCENDING |};
              rankRange := Some (1200, 1800) |}
           {| orderBy := RANKING; sortOrder := ASCENDING |}).
  - reflexivity.
  - reflexivity.
  - reflexivity.
  - reflexivity.
  - reflexivity.
Defined.

(** The popper is gone when the handler runs: the call throws. *)
Lemma disable_unmounted_fails :
  popperRef sampleUnmounted = None
  ∧ handleDisable sampleUnmounted = Throw "TypeError"
  ∧ ¬ ∃ st', handleDisable sampleUnmounted = Ok st'.
Proof. split_and!; [done|done|]. by intros [st' ?]. Qed.

Lemma disable_unmounted_throws_sample :
  handleDisable sampleUnmounted = Throw "TypeError"
  ∧ ¬ ∃ st', handleDisable sampleUnmounted = Ok st'.
Proof. apply (disable_unmounted_throws sampleUnmounted). reflexivity. Defined.

Lemma activate_fetches_and_shows_sample :
  let st' := handleEnable sampleDisabled in
  enable st' = true
  ∧ dispatched st'
    = dispatched sampleDisabled
      ++ [enableProblemRating; fetchProblemRankDataThunk; fetchAllQuestions]
  ∧ rootDisplay st' = "block"
  ∧ navigations st' = navigations sampleDisabled
  ∧ location st' = location sampleDisabled
  ∧ timers st' = timers sampleDisabled.
Proof. apply (activate_fetches_and_shows sampleDisabled). reflexivity. Defined.

(** ** The header map *)

Section HeaderMap.
Variable SORT_KEY : list SortKey.
Hypothesis SORT_KEY_distinct : NoDup (key <$> SORT_KEY).

Lemma sort_key_index (i j : nat) (k k' : SortKey) :
  SORT_KEY !! i = Some k → SORT_KEY !! j = Some k' → key k = key k' → i = j.
Proof.
  intros Hi Hj Hk.
  apply (NoDup_lookup (key <$> SORT_KEY) i j (key k)); [done|..].
  - by rewrite list_lookup_fmap, Hi.
  - by rewrite list_lookup_fmap, Hj, Hk.
Qed.

(** After the first [n] turns of the loop, the keys at positions below [n]
    hold what the loop stored for their position, and no other key holds
    anything. *)
Lemma assignRoot_turns (children : list Element) (n : nat) :
  let m := foldl (assignRoot SORT_KEY children) ∅ (seq 0 n) in
  (∀ i k, SORT_KEY !! i = Some k →
     m !! key k = if decide (i < n)%nat then rootAt children i else None)
  ∧ (∀ κ, κ ∉ key <$> SORT_KEY → m !! κ = None).
Proof.
  induction n as [|n [IHin IHout]]; cbv zeta.
  - split; intros; [by rewrite decide_False by lia|done].
  - rewrite seq_S, foldl_snoc. cbv zeta in IHin, IHout. simpl.
    set (m := foldl (assignRoot SORT_KEY children) ∅ (seq 0 n)) in *.
    destruct (SORT_KEY !! n) as [kn|] eqn:Hkn.
    + assert (Hstep : ∀ κ,
        assignRoot SORT_KEY children m n !! κ
        = if decide (κ = key kn) then rootAt children n else m !! κ).
      { intros κ. unfold assignRoot, rootAt. rewrite Hkn. case_decide as Hκ.
        - subst κ. destruct (children !! n) as [child|] eqn:Hc.
          + destruct (instanceofHTMLElement child); [apply lookup_insert_eq|].
            rewrite (IHin n kn Hkn). by rewrite decide_False by lia.
          + rewrite (IHin n kn Hkn). by rewrite decide_False by lia.
        - destruct (children !! n) as [child|]; [|done].
          destruct (instanceofHTMLElement child); [|done].
          by rewrite lookup_insert_ne. }
      split.
      * intros i k Hi. rewrite Hstep. case_decide as Hκ.
        -- assert (i = n) as -> by (by eapply sort_key_index).
           by rewrite decide_True by lia.
        -- rewrite (IHin i k Hi).
           assert (i ≠ n) by (intros ->; rewrite Hkn in Hi; by simplify_eq).
           repeat case_decide; (done || lia).
      * intros κ Hκ. rewrite Hstep. rewrite decide_False; [by apply IHout|].
        intros ->. apply Hκ. apply list_elem_of_fmap. exists kn. split; [done|].
        by eapply list_elem_of_lookup_2.
    + assert (Hstep : assignRoot SORT_KEY children m n = m).
      { unfold assignRoot. by rewrite Hkn. }
      rewrite Hstep. split.
      * intros i k Hi. rewrite (IHin i k Hi).
        assert (i < n)%nat.
        { apply lookup_lt_Some in Hi. apply lookup_ge_None in Hkn. lia. }
        by rewrite !decide_True by lia.
      * done.
Qed.

(** The key at position [i] of [SORT_KEY] holds the [i]-th kept cell of
    the header row, and keys that are not in [SORT_KEY] hold nothing. *)
Lemma otherRoots_lookup (cells : list Element) (i : nat) (k : SortKey) :
  SORT_KEY !! i = Some k →
  otherRoots SORT_KEY (Some cells) !! key k
  = rootAt (filter (λ el, keepHeaderCell el = true) cells) i.
Proof.
  intros Hi. unfold otherRoots.
  destruct (assignRoot_turns (filter (λ el, keepHeaderCell el = true) cells)
              (length SORT_KEY)) as [Hin _].
  rewrite (Hin i k Hi). apply lookup_lt_Some in Hi. by rewrite decide_True.
Qed.

Lemma otherRoots_other_key (cells : list Element) (κ : string) :
  κ ∉ key <$> SORT_KEY → otherRoots SORT_KEY (Some cells) !! κ = None.
Proof.
  intros Hκ. unfold otherRoots.
  by destruct (assignRoot_turns (filter (λ el, keepHeaderCell el = true) cells)
                 (length SORT_KEY)) as [_ ->].
Qed.

(** Every element in the map is one of the first [length SORT_KEY] kept
    cells, with its padding set to 0. *)
Lemma otherRoots_range (cells : list Element) (κ : string) (el : Element) :
  otherRoots SORT_KEY (Some cells) !! κ = Some el →
  ∃ i child, (i < length SORT_KEY)%nat
    ∧ filter (λ el, keepHeaderCell el = true) cells !! i = Some child
    ∧ keepHeaderCell child = true
    ∧ el = zeroPadding child.
Proof.
  intros Hel.
  destruct (decide (κ ∈ key <$> SORT_KEY)) as [Hin|Hout].
  - apply list_elem_of_fmap in Hin as (k & -> & Hk).
    apply list_elem_of_lookup in Hk as [i Hi].
    rewrite (otherRoots_lookup cells i k Hi) in Hel. unfold rootAt in Hel.
    destruct (filter _ cells !! i) as [child|] eqn:Hc; [|done].
    destruct (instanceofHTMLElement child); [|done].
    exists i, child. split_and!; [by eapply lookup_lt_Some|done| |by simplify_eq].
    apply list_elem_of_lookup_2 in Hc. by apply list_elem_of_filter in Hc as [? _].
  - by rewrite otherRoots_other_key in Hel.
Qed.

Lemma keepHeaderCell_true (el : Element) :
  keepHeaderCell el = true ↔ textContent el ≠ "" ∧ textContent el ∉ excludedTitles.
Proof.
  unfold keepHeaderCell. rewrite andb_true_iff, !bool_decide_eq_true. done.
Qed.

Lemma keepHeaderCell_excluded (el : Element) :
  textContent el ∈ excludedTitles → keepHeaderCell el = false.
Proof.
  intros Hin. apply not_true_is_false. rewrite keepHeaderCell_true. tauto.
Qed.

(** C5: with four sort keys, and a header row that starts with the status
    cell, four cells with other, non-empty texts and the company cell,
    each key holds the cell at its position among those four (its padding
    set to 0), in the declared order of the keys; no other key holds
    anything; the status and the company cell are not in the map; and
    whatever cells follow in the row make no difference. *)
Theorem header_map_positional (k1 k2 k3 k4 : SortKey)
    (status title acceptance difficulty frequency company : Element)
    (more : list Element) :
  SORT_KEY = [k1; k2; k3; k4] →
  textContent status = "状态" →
  textContent company = "企业" →
  Forall (λ cell, textContent cell ≠ "" ∧ (textContent cell ∉ excludedTitles)
                  ∧ instanceofHTMLElement cell = true)
         [title; acceptance; difficulty; frequency] →
  let header := [status; title; acceptance; difficulty; frequency; company] in
  let m := otherRoots SORT_KEY (Some (header ++ more)) in
  m !! key k1 = Some (zeroPadding title)
  ∧ m !! key k2 = Some (zeroPadding acceptance)
  ∧ m !! key k3 = Some (zeroPadding difficulty)
  ∧ m !! key k4 = Some (zeroPadding frequency)
  ∧ (∀ κ, κ ∉ [key k1; key k2; key k3; key k4] → m !! κ = None)
  ∧ (∀ κ el, m !! κ = Some el →
       el ∈ zeroPadding <$> [title; acceptance; difficulty; frequency])
  ∧ m = otherRoots SORT_KEY (Some header).
Proof.
  intros HSK Hstatus Hcompany Hcells header m.
  assert (Hkept : ∀ rest,
    filter (λ el, keepHeaderCell el = true) (header ++ rest)
    = [title; acceptance; difficulty; frequency]
      ++ filter (λ el, keepHeaderCell el = true) rest).
  { intros rest. unfold header. simpl.
    rewrite filter_cons_False.
    2:{ rewrite keepHeaderCell_excluded; [done|].
        rewrite Hstatus. unfold excludedTitles. set_solver. }
    apply Forall_cons in Hcells as [(?&?&_) Hcells].
    apply Forall_cons in Hcells as [(?&?&_) Hcells].
    apply Forall_cons in Hcells as [(?&?&_) Hcells].
    apply Forall_cons in Hcells as [(?&?&_) _].
    rewrite !filter_cons_True by (by apply keepHeaderCell_true).
    rewrite filter_cons_False; [done|].
    rewrite keepHeaderCell_excluded; [done|].
    rewrite Hcompany. unfold excludedTitles. set_solver. }
  assert (Hat : ∀ rest i cell,
    [title; acceptance; difficulty; frequency] !! i = Some cell →
    rootAt (filter (λ el, keepHeaderCell el = true) (header ++ rest)) i
    = Some (zeroPadding cell)).
  { intros rest i cell Hi. unfold rootAt. rewrite Hkept.
    rewrite (lookup_app_l_Some _ _ _ _ Hi).
    apply list_elem_of_lookup_2 in Hi.
    rewrite Forall_forall in Hcells. by destruct (Hcells cell Hi) as (_ & _ & ->). }
  assert (Hlook : ∀ rest i k cell,
    SORT_KEY !! i = Some k →
    [title; acceptance; difficulty; frequency] !! i = Some cell →
    otherRoots SORT_KEY (Some (header ++ rest)) !! key k = Some (zeroPadding cell)).
  { intros rest i k cell Hk Hi. rewrite (otherRoots_lookup _ i k Hk). by apply Hat. }
  assert (Hother : ∀ rest κ,
    κ ∉ [key k1; key k2; key k3; key k4] →
    otherRoots SORT_KEY (Some (header ++ rest)) !! κ = None).
  { intros rest κ Hκ. apply otherRoots_other_key. by rewrite HSK. }
  split_and!.
  - apply (Hlook more 0%nat); by rewrite ?HSK.
  - apply (Hlook more 1%nat); by rewrite ?HSK.
  - apply (Hlook more 2%nat); by rewrite ?HSK.
  - apply (Hlook more 3%nat); by rewrite ?HSK.
  - apply Hother.
  - intros κ el Hel.
    destruct (otherRoots_range _ κ el Hel) as (i & child & Hi & Hc & _ & ->).
    rewrite Hkept in Hc. rewrite HSK in Hi. simpl in Hi.
    rewrite lookup_app_l in Hc by (simpl; lia).
    apply list_elem_of_fmap_2. by eapply list_elem_of_lookup_2.
  - apply map_eq. intros κ. unfold m.
    rewrite <-(app_nil_r header) at 2.
    destruct (decide (κ ∈ [key k1; key k2; key k3; key k4])) as [Hin|Hout].
    + assert (∃ i k cell, SORT_KEY !! i = Some k ∧ κ = key k
          ∧ [title; acceptance; difficulty; frequency] !! i = Some cell)
        as (i & k & cell & Hk & -> & Hi).
      { rewrite HSK. set_unfold in Hin.
        destruct Hin as [->|[->|[->|[->|[]]]]].
        - by exists 0%nat, k1, title.
        - by exists 1%nat, k2, acceptance.
        - by exists 2%nat, k3, difficulty.
        - by exists 3%nat, k4, frequency. }
      by rewrite !(Hlook _ i k cell Hk Hi).
    + by rewrite !Hother.
Qed.

End HeaderMap.

Lemma sampleSortKeys_distinct : NoDup (key <$> sampleSortKeys).
Proof. apply (bool_decide_unpack _). by vm_compute. Qed.

Lemma header_map_positional_sample :
  let status := headerCell 0 "状态" in
  let title := headerCell 1 "题目" in
  let acceptance := headerCell 2 "通过率" in
  let difficulty := headerCell 3 "难度" in
  let frequency := headerCell 4 "出现频率" in
  let company := headerCell 5 "企业" in
  let header := [status; title; acceptance; difficulty; frequency; company] in
  let m := otherRoots sampleSortKeys (Some (header ++ [headerCell 6 "标签"])) in
  m !! "FRONTEND_ID" = Some (zeroPadding title)
  ∧ m !! "AC_RATE" = Some (zeroPadding acceptance)
  ∧ m !! "DIFFICULTY" = Some (zeroPadding difficulty)
  ∧ m !! "FREQUENCY" = Some (zeroPadding frequency)
  ∧ (∀ κ, κ ∉ ["FRONTEND_ID"; "AC_RATE"; "DIFFICULTY"; "FREQUENCY"] → m !! κ = None)
  ∧ (∀ κ el, m !! κ = Some el →
       el ∈ zeroPadding <$> [title; acceptance; difficulty; frequency])
  ∧ m = otherRoots sampleSortKeys (Some header).
Proof.
  apply (header_map_positional sampleSortKeys
           sampleSortKeys_distinct
           {| key := "FRONTEND_ID"; title := "题目" |}
           {| key := "AC_RATE"; title := "通过率" |}
           {| key := "DIFFICULTY"; title := "难度" |}
           {| key := "FREQUENCY"; title := "出现频率" |}).
  - reflexivity.
  - reflexivity.
  - reflexivity.
  - repeat constructor; try discriminate; apply bool_decide_unpack; by vm_compute.
Defined.

(** ** The rows of the table *)

Section SynchronizerFacts.
Variable rowgroupChildren : Z → list Element.

Abbreviation mutation := (mutation rowgroupChildren).
Abbreviation elapse := (elapse rowgroupChildren).

(** While nothing is due, letting time pass only moves the clock. *)
Lemma elapse_quiet (t : Z) (s : SyncState) :
  quiet s t → clock s ≤ t →
  elapse t s
  = {| clock := t; timeoutId := timeoutId s; observing := observing s;
       rows := rows s; republished := republished s |}.
Proof.
  unfold quiet, elapse, settle. intros Hq Hc.
  destruct (timeoutId s) as [d|] eqn:Hd.
  - rewrite decide_False by lia. rewrite Hd. f_equal. lia.
  - rewrite Hd. f_equal. lia.
Qed.

(** A mutation reported while nothing is due restarts the window. *)
Lemma mutation_quiet (t : Z) (s : SyncState) :
  observing s = true → quiet s t → clock s ≤ t →
  mutation s t
  = {| clock := t; timeoutId := Some (t + 500); observing := true;
       rows := rows s; republished := republished s |}.
Proof.
  intros Ho Hq Hc. unfold mutation.
  fold (elapse t s). rewrite elapse_quiet by done. simpl. by rewrite Ho.
Qed.

(** A burst whose gaps are shorter than the window never lets the
    debounced call run: at its end one call is pending, due one window
    after the last mutation. *)
Lemma burst_pending (gap : Z) (times : list Z) :
  gap < 500 →
  ∀ (s : SyncState) (first : Z),
    observing s = true → head times = Some first → quiet s first →
    clock s ≤ first → burst gap times →
    ∃ final, last times = Some final
      ∧ foldl mutation s times
        = {| clock := final; timeoutId := Some (final + 500); observing := true;
             rows := rows s; republished := republished s |}.
Proof.
  intros Hgap. induction times as [|t1 times IH]; intros s first Ho Hh Hq Hc Hb.
  - done.
  - simpl in Hh. injection Hh as ->.
    simpl. rewrite mutation_quiet by done.
    destruct times as [|t2 times].
    + exists first. by split.
    + destruct Hb as [Hgap12 Hb].
      destruct (IH {| clock := first; timeoutId := Some (first + 500);
                      observing := true; rows := rows s;
                      republished := republished s |} t2)
        as (final & Hlast & Hrun); [done|done|unfold quiet; simpl; lia|simpl; lia|done|].
      exists final. split; [by rewrite last_cons_cons|]. exact Hrun.
Qed.

Lemma scanRows_all_div (children : list Element) :
  Forall (λ el, instanceofHTMLDivElement el = true) children →
  scanRows children = children.
Proof.
  induction 1 as [|el children Hel _ IH]; [done|].
  unfold scanRows in *. by rewrite filter_cons_True, IH.
Qed.

(** C6, as the code has it: a burst of twenty mutations, each at most
    100 ms after the one before, reported while the observer is connected
    and no earlier call is due, is followed by exactly one call of
    [setRows] by [handleRowChange].  It happens 500 ms after the last
    mutation, not before, and publishes the children of the row group at
    that instant that are [HTMLDivElement]s, in document order: all the
    children when every child is one. *)
Theorem burst_republishes_once (s : SyncState) (times : list Z) (first final : Z) :
  observing s = true →
  length times = 20%nat →
  burst 100 times →
  head times = Some first →
  last times = Some final →
  clock s ≤ first →
  quiet s first →
  let s' := foldl mutation s times in
  let found := filter (λ el, instanceofHTMLDivElement el = true)
                 (rowgroupChildren (final + 500)) in
  (∀ t, t < final + 500 → republished (elapse t s') = republished s)
  ∧ (∀ t, final + 500 ≤ t →
       republished (elapse t s') = republished s ++ [(final + 500, found)]
       ∧ rows (elapse t s') = found
       ∧ timeoutId (elapse t s') = None)
  ∧ (Forall (λ el, instanceofHTMLDivElement el = true) (rowgroupChildren (final + 500)) →
     found = rowgroupChildren (final + 500)).
Proof.
  intros Ho _ Hb Hh Hl Hc Hq s' found.
  destruct (burst_pending 100 times ltac:(lia) s first Ho Hh Hq Hc Hb)
    as (final' & Hl' & Hrun).
  rewrite Hl in Hl'. injection Hl' as <-.
  unfold s'. rewrite Hrun. split_and!.
  - intros t Ht. unfold elapse, settle. simpl. by rewrite decide_False by lia.
  - intros t Ht. unfold elapse, settle. simpl. by rewrite decide_True by lia.
  - apply scanRows_all_div.
Qed.

End SynchronizerFacts.

Lemma burst_republishes_once_sample :
  let s' := foldl (mutation sampleRowgroup) sampleSync sampleBurst in
  let found := filter (λ el, instanceofHTMLDivElement el = true)
                 (sampleRowgroup (2900 + 500)) in
  (∀ t, t < 2900 + 500 →
     republished (elapse sampleRowgroup t s') = republished sampleSync)
  ∧ (∀ t, 2900 + 500 ≤ t →
       republished (elapse sampleRowgroup t s')
       = republished sampleSync ++ [(2900 + 500, found)]
       ∧ rows (elapse sampleRowgroup t s') = found
       ∧ timeoutId (elapse sampleRowgroup t s') = None)
  ∧ (Forall (λ el, instanceofHTMLDivElement el = true) (sampleRowgroup (2900 + 500)) →
     found = sampleRowgroup (2900 + 500)).
Proof.
  apply (burst_republishes_once sampleRowgroup sampleSync sampleBurst 1000 2900).
  - reflexivity.
  - reflexivity.
  - simpl. repeat split; lia.
  - reflexivity.
  - reflexivity.
  - by vm_compute.
  - by vm_compute.
Defined.

(** When the burst of the sample page has settled, the row group has three
    element children, one of them not a [div]: the one republish of the
    burst leaves that child out. *)
Lemma republish_skips_non_div :
  let s' := elapse sampleRowgroup 4000
              (foldl (mutation sampleRowgroup) sampleSync sampleBurst) in
  republished s'
  = republished sampleSync ++ [(3400, [headerCell 20 "lru-cache"; headerCell 22 "word-break"])]
  ∧ length (sampleRowgroup 3400) = 3%nat
  ∧ rows s' ≠ sampleRowgroup 3400.
Proof. split_and!; [by vm_compute|by vm_compute|by vm_compute]. Qed.

(** * Further properties *)

(** ** More about the store of [globalSlice.ts] *)

Section GlobalSliceMore.
Context {GlobalData ProblemsetPageProps ProblemRankData UserStatus FeaturedLists : Type}.
Variable TitleSlug : ProblemRankData → string.
Variable userStatus : GlobalData → option UserStatus.
Variable isPremium : UserStatus → option bool.
Variable isSignedIn : UserStatus → option bool.
Variable featuredLists : ProblemsetPageProps → FeaturedLists.

Abbreviation State := (@GlobalState GlobalData ProblemsetPageProps ProblemRankData).
Abbreviation Act := (@Action GlobalData ProblemsetPageProps ProblemRankData).

Implicit Types (state : State) (actions : list Act) (payload : list ProblemRankData).

(** X1: Every own record of the store sits under its own slug, which is never
    [__proto__], and came with a fulfilled rank-data fetch whose payload
    the reducer took. *)
Theorem rank_store_keyed_by_slug actions :
  map_Forall (λ slug rank, TitleSlug rank = slug ∧ slug ≠ "__proto__"
                           ∧ rank ∈ storedRanks TitleSlug actions)
    (rankDataMap (dispatchAll TitleSlug initialState actions)).
Proof.
  intros slug rank Hlook.
  rewrite dispatchAll_rankDataMap, assignAll_lookup in Hlook. simpl in Hlook.
  destruct (last (withSlug TitleSlug slug (storedRanks TitleSlug actions)))
    as [rank'|] eqn:Hlast; [|done].
  injection Hlook as ->. apply last_Some_elem_of in Hlast.
  apply list_elem_of_filter in Hlast as [Hslug Hin].
  split_and!; [done| |done].
  intros ->. apply (storedRanks_no_proto TitleSlug actions).
  rewrite <-Hslug. by apply list_elem_of_fmap_2.
Qed.

(** Assigning the records of a list a second time changes nothing. *)
Lemma assignAll_twice payload (m : gmap string ProblemRankData) :
  assignAll TitleSlug payload (assignAll TitleSlug payload m)
  = assignAll TitleSlug payload m.
Proof.
  apply map_eq. intros slug. rewrite !assignAll_lookup. by destruct (last _).
Qed.

(** X2: The reducer is idempotent: when it returns a state for an action, it
    returns that same state when the action is delivered to it again (the
    same payload fetched again); when it throws on an action, it throws on
    it in every state; either way, dispatching an action twice in a row
    leaves the store as dispatching it once does. *)
Theorem reducer_twice state (action : Act) :
  (∀ state1, reducer TitleSlug state action = Ok state1 →
     reducer TitleSlug state1 action = Ok state1)
  ∧ (∀ error state', reducer TitleSlug state action = Throw error →
       reducer TitleSlug state' action = Throw error)
  ∧ dispatchAll TitleSlug state [action; action] = dispatchAll TitleSlug state [action].
Proof.
  assert (Hok : ∀ state1, reducer TitleSlug state action = Ok state1 →
    reducer TitleSlug state1 action = Ok state1).
  { intros state1 H1. destruct action as [[]|[]|[| payload |]|]; simpl in *;
      try (by injection H1 as <-).
    destruct (decide (accepted TitleSlug payload)) as [Hacc|Hacc].
    - rewrite storeRanks_accepted in H1 |- * by done. injection H1 as <-. simpl.
      by rewrite assignAll_twice.
    - by rewrite storeRanks_throws in H1. }
  assert (Hthrow : ∀ error state', reducer TitleSlug state action = Throw error →
    reducer TitleSlug state' action = Throw error).
  { intros error state' H1. destruct action as [[]|[]|[| payload |]|]; simpl in *;
      try done.
    destruct (decide (accepted TitleSlug payload)) as [Hacc|Hacc].
    - by rewrite storeRanks_accepted in H1.
    - rewrite storeRanks_throws in H1 |- * by done. done. }
  split_and!; [done|done|].
  unfold dispatchAll. cbn [foldl].
  destruct (reducer TitleSlug state action) as [state1|error] eqn:H1.
  - assert (storeDispatch TitleSlug state action = state1) as ->.
    { unfold storeDispatch. by rewrite H1. }
    unfold storeDispatch. by rewrite (Hok state1 eq_refl).
  - assert (storeDispatch TitleSlug state action = state) as ->.
    { unfold storeDispatch. by rewrite H1. }
    unfold storeDispatch. by rewrite H1.
Qed.

(** Among records with pairwise different slugs, at most one carries a
    given slug. *)
Lemma withSlug_distinct payload slug :
  NoDup (TitleSlug <$> payload) →
  (length (withSlug TitleSlug slug payload) ≤ 1)%nat.
Proof.
  unfold withSlug. induction payload as [|rank payload IH]; intros Hnd; [simpl; lia|].
  rewrite fmap_cons in Hnd. apply NoDup_cons in Hnd as [Hfresh Hnd].
  destruct (decide (TitleSlug rank = slug)) as [Heq|Hne].
  - rewrite filter_cons_True by done.
    assert (filter (λ r, TitleSlug r = slug) payload = []) as ->; [|simpl; lia].
    destruct (filter _ payload) as [|r l] eqn:Hf; [done|]. exfalso. apply Hfresh.
    assert (Hin : r ∈ filter (λ r, TitleSlug r = slug) payload) by (rewrite Hf; left).
    apply list_elem_of_filter in Hin as [Hr Hin]. rewrite Heq, <-Hr.
    by apply list_elem_of_fmap_2.
  - rewrite filter_cons_False by done. by apply IH.
Qed.

(** X3: When the records of a payload have pairwise different slugs, the order
    in which the payload lists them does not matter to the loop of the
    reducer: any permutation gives the same store, or throws just the
    same when one of the slugs is [__proto__]. *)
Theorem storeRanks_order_irrelevant payload payload' (m : gmap string ProblemRankData) :
  NoDup (TitleSlug <$> payload) →
  payload ≡ₚ payload' →
  storeRanks TitleSlug payload m = storeRanks TitleSlug payload' m.
Proof.
  intros Hnd Hperm.
  destruct (decide (accepted TitleSlug payload)) as [Hacc|Hacc].
  - assert (Hacc' : accepted TitleSlug payload').
    { unfold accepted in *. by rewrite <-Hperm. }
    rewrite !storeRanks_accepted by done. f_equal.
    apply map_eq. intros slug. rewrite !assignAll_lookup.
    assert (Hnd' : NoDup (TitleSlug <$> payload')) by (by rewrite <-Hperm).
    pose proof (withSlug_distinct payload slug Hnd) as Hlen.
    pose proof (withSlug_distinct payload' slug Hnd') as Hlen'.
    assert (Hp : withSlug TitleSlug slug payload ≡ₚ withSlug TitleSlug slug payload').
    { unfold withSlug. by rewrite Hperm. }
    destruct (withSlug TitleSlug slug payload) as [|r [|]] eqn:H1; simpl in Hlen; [| |lia].
    + apply Permutation_nil_l in Hp. by rewrite <-Hp.
    + apply Permutation_singleton_l in Hp. by rewrite <-Hp.
  - assert (Hacc' : ¬ accepted TitleSlug payload').
    { unfold accepted in *. by rewrite <-Hperm. }
    by rewrite !storeRanks_throws.
Qed.

(** X4: The store only grows: whatever actions are dispatched, no own key is
    lost, and a slug that none of the payloads taken carries keeps the
    record, or the absence of one, that it had, so that the selector
    answers for it as before. *)
Theorem rank_store_only_grows state actions :
  dom (rankDataMap state) ⊆ dom (rankDataMap (dispatchAll TitleSlug state actions))
  ∧ ∀ slug, slug ∉ TitleSlug <$> storedRanks TitleSlug actions →
      rankDataMap (dispatchAll TitleSlug state actions) !! slug = rankDataMap state !! slug
      ∧ selectProblemRankDataByTitleSlug
          {| global := dispatchAll TitleSlug state actions |} slug
        = selectProblemRankDataByTitleSlug {| global := state |} slug.
Proof.
  rewrite dispatchAll_rankDataMap. split.
  - rewrite assignAll_dom. set_solver.
  - intros slug Hnot.
    assert (Hsame : assignAll TitleSlug (storedRanks TitleSlug actions) (rankDataMap state)
                    !! slug = rankDataMap state !! slug).
    { rewrite assignAll_lookup.
      destruct (last (withSlug TitleSlug slug (storedRanks TitleSlug actions)))
        as [rank|] eqn:Hlast; [|done].
      exfalso. apply Hnot. apply last_Some_elem_of in Hlast.
      apply list_elem_of_filter in Hlast as [<- Hin]. by apply list_elem_of_fmap_2. }
    split; [done|].
    unfold selectProblemRankDataByTitleSlug, getProperty. simpl.
    by rewrite dispatchAll_rankDataMap, Hsame.
Qed.

Lemma fulfilledGlobalData_cons (a : Act) actions :
  fulfilledGlobalData (a :: actions)
  = match a with
    | fetchGlobalData (fulfilled payload) => payload :: fulfilledGlobalData actions
    | _ => fulfilledGlobalData actions
    end.
Proof. by destruct a as [[]|[]|[]|]. Qed.

Lemma fulfilledPageProps_cons (a : Act) actions :
  fulfilledPageProps (a :: actions)
  = match a with
    | fetchProblemsetPageProps (fulfilled payload) => payload :: fulfilledPageProps actions
    | _ => fulfilledPageProps actions
    end.
Proof. by destruct a as [[]|[]|[]|]. Qed.

Lemma dispatchAll_globalData state actions :
  globalData (dispatchAll TitleSlug state actions)
  = match last (fulfilledGlobalData actions) with
    | Some data => Some data
    | None => globalData state
    end.
Proof.
  revert state. induction actions as [|a actions IH]; intros state; [done|].
  rewrite dispatchAll_cons, IH, fulfilledGlobalData_cons.
  destruct a as [[| payload |]|[]|[| ranks |]|]; try done.
  - rewrite last_cons. by destruct (last _).
  - unfold storeDispatch. simpl.
    by destruct (storeRanks TitleSlug ranks (rankDataMap state)).
Qed.

Lemma dispatchAll_problemsetPageProps state actions :
  problemsetPageProps (dispatchAll TitleSlug state actions)
  = match last (fulfilledPageProps actions) with
    | Some props => Some props
    | None => problemsetPageProps state
    end.
Proof.
  revert state. induction actions as [|a actions IH]; intros state; [done|].
  rewrite dispatchAll_cons, IH, fulfilledPageProps_cons.
  destruct a as [[]|[| payload |]|[| ranks |]|]; try done.
  - rewrite last_cons. by destruct (last _).
  - unfold storeDispatch. simpl.
    by destruct (storeRanks TitleSlug ranks (rankDataMap state)).
Qed.

(** X5: After any run of actions from the initial state, the three selectors
    answer from the payload of the last fulfilled fetch of their own
    thunk, and with nothing while there has been none: rank-data actions,
    rejections and actions of other slices do not count. *)
Theorem selectors_read_last_fulfilled actions :
  let root := {| global := dispatchAll TitleSlug initialState actions |} in
  let data : option GlobalData := last (fulfilledGlobalData actions) in
  let props : option ProblemsetPageProps := last (fulfilledPageProps actions) in
  selectIsPremium userStatus isPremium root = (data ≫= userStatus) ≫= isPremium
  ∧ selectIsSignedIn userStatus isSignedIn root = (data ≫= userStatus) ≫= isSignedIn
  ∧ selectFeaturedLists featuredLists root = featuredLists <$> props.
Proof.
  unfold selectIsPremium, selectIsSignedIn, selectFeaturedLists. simpl.
  rewrite dispatchAll_globalData, dispatchAll_problemsetPageProps. simpl.
  destruct (last (fulfilledGlobalData actions)) as [data|]; simpl;
    [destruct (userStatus data); simpl|];
    by destruct (last (fulfilledPageProps actions)).
Qed.

End GlobalSliceMore.

Lemma storeRanks_order_irrelevant_sample :
  storeRanks sampleSlug
    [ {| sampleSlug := "two-sum"; sampleRating := 1100 |};
      {| sampleSlug := "lru-cache"; sampleRating := 1900 |} ] ∅
  = storeRanks sampleSlug
      [ {| sampleSlug := "lru-cache"; sampleRating := 1900 |};
        {| sampleSlug := "two-sum"; sampleRating := 1100 |} ] ∅.
Proof.
  apply (storeRanks_order_irrelevant sampleSlug).
  - apply (bool_decide_unpack _). by vm_compute.
  - apply perm_swap.
Defined.

(** ** More about switching the rank column off *)

(** X6: Cleaning the parameters a second time changes nothing. *)
Theorem clearCustom_twice (params : Params) :
  clearCustom (clearCustom params) = clearCustom params.
Proof. apply clearCustom_no_custom, clearCustom_custom. Qed.

Section AppMore.
Variable parseParams : Location → Params.
Variable serializationPrams : Params → string.
Variable hostRoute : string → Location → Location.

Abbreviation advance := (advance parseParams serializationPrams hostRoute).
Abbreviation fireDue := (fireDue parseParams serializationPrams hostRoute).
Abbreviation disableUrl := (disableUrl parseParams serializationPrams).

(** X7: When the custom block holds no sort (only a rank range, say), the
    callback drops the native [sorting] all the same and puts nothing in
    its place: the URL navigated to has neither. *)
Theorem disable_range_only_drops_sorting (st : AppState) (rect : DOMRect) (c : Custom) :
  popperRef st = Some rect →
  timers st = [] →
  custom (parseParams (location st)) = Some c →
  sort c = None →
  clearCustom (parseParams (location st))
  = {| sorting := None; custom := None; others := others (parseParams (location st)) |}
  ∧ ∃ st1, handleDisable st = Ok st1
      ∧ ∀ t, now st + 500 ≤ t →
          navigations (advance t st1)
          = navigations st
            ++ [ pathname (location st) +:+ "?"
                 +:+ serializationPrams
                       {| sorting := None; custom := None;
                          others := others (parseParams (location st)) |} ].
Proof.
  intros Hp Hq Hc Hs.
  assert (Hclear : clearCustom (parseParams (location st))
    = {| sorting := None; custom := None; others := others (parseParams (location st)) |}).
  { unfold clearCustom. by rewrite Hc, Hs. }
  split; [done|].
  destruct (disable_then_wait parseParams serializationPrams hostRoute st rect Hp Hq)
    as (st1 & Hok & _ & Hafter).
  exists st1. split; [done|]. intros t Ht.
  rewrite (Hafter t Ht). unfold disableUrl. by rewrite Hclear.
Qed.

(** X8: Without a custom block the callback still navigates, to the current
    path with the parsed parameters serialized again as they are, the
    native [sorting] included. *)
Theorem disable_without_custom_keeps_params (st : AppState) (rect : DOMRect) :
  popperRef st = Some rect →
  timers st = [] →
  custom (parseParams (location st)) = None →
  ∃ st1, handleDisable st = Ok st1
    ∧ ∀ t, now st + 500 ≤ t →
        navigations (advance t st1)
        = navigations st
          ++ [ pathname (location st) +:+ "?"
               +:+ serializationPrams (parseParams (location st)) ].
Proof.
  intros Hp Hq Hc.
  destruct (disable_then_wait parseParams serializationPrams hostRoute st rect Hp Hq)
    as (st1 & Hok & _ & Hafter).
  exists st1. split; [done|]. intros t Ht.
  rewrite (Hafter t Ht). unfold disableUrl. by rewrite clearCustom_no_custom.
Qed.

(** X9: When the router keeps the path and the codec reads back, at the URL
    the callback navigates to, the parameters that were serialized, a
    second run of the callback navigates to that same URL again. *)
Theorem disable_again_same_url (l : Location) :
  pathname (hostRoute (disableUrl l) l) = pathname l →
  parseParams (hostRoute (disableUrl l) l) = clearCustom (parseParams l) →
  disableUrl (hostRoute (disableUrl l) l) = disableUrl l.
Proof.
  intros Hpath Hparse. unfold disableUrl at 1.
  rewrite Hpath, Hparse.
  by rewrite (clearCustom_no_custom (clearCustom _)) by apply clearCustom_custom.
Qed.

(** X10: A deactivation from the enabled state takes effect at once: the flag
    is cleared, the overlay root hidden, the anchor of the open button set
    from the popper's rectangle and the window size, and
    [disableProblemRating] is the one action dispatched.  The location is
    untouched, and nothing is navigated to until 500 ms have gone by. *)
Theorem deactivate_hides_at_once (st : AppState) (rect : DOMRect) :
  enable st = true →
  popperRef st = Some rect →
  timers st = [] →
  ∃ st1, handleDisable st = Ok st1
    ∧ enable st1 = false
    ∧ rootDisplay st1 = "none"
    ∧ pos st1 = Some {| posRight := innerWidth st - right rect;
                        posBottom := innerHeight st - bottom rect |}
    ∧ dispatched st1 = dispatched st ++ [disableProblemRating]
    ∧ location st1 = location st
    ∧ timers st1 = [now st + 500]
    ∧ ∀ t, t < now st + 500 →
        navigations (advance t st1) = navigations st
        ∧ location (advance t st1) = location st.
Proof.
  intros He Hp Hq.
  destruct (handleDisable_mounted st rect Hp)
    as (st1 & Hok & Hnow & Hen & Hpos & _ & Hloc & Htm & Hnav & Hds & Hrd).
  rewrite Hq in Htm. simpl in Htm. rewrite He in Hrd.
  exists st1. split_and!; try done.
  intros t Ht. unfold advance. rewrite Htm.
  rewrite (fireDue_early parseParams serializationPrams hostRoute) by lia.
  simpl. by rewrite Hnav, Hloc.
Qed.

(** X11: Switching off and straight on again: the flag is set and the root
    shown as before, the location and the navigation log are untouched,
    both fetches have been requested anew, and the timer of the
    deactivation is in the queue. *)
Theorem disable_enable_round_trip (st : AppState) (rect : DOMRect) :
  enable st = true →
  popperRef st = Some rect →
  ∃ st1, handleDisable st = Ok st1
    ∧ let st2 := handleEnable st1 in
      enable st2 = true
      ∧ rootDisplay st2 = "block"
      ∧ dispatched st2
        = dispatched st ++ [ disableProblemRating; enableProblemRating;
                             fetchProblemRankDataThunk; fetchAllQuestions ]
      ∧ location st2 = location st
      ∧ navigations st2 = navigations st
      ∧ timers st2 = enqueue (now st + 500) (timers st).
Proof.
  intros He Hp. unfold handleDisable. rewrite Hp. eexists. split; [reflexivity|].
  destruct st as [t e p r w h d l q ds ns]. simpl in *. subst e.
  unfold handleEnable, commit, enableEffect, dispatch. simpl.
  rewrite <-!(assoc_L (++)). by repeat split.
Qed.

(** X12: Every pending timer fires once: when no deadline is more than 500 ms
    away, 500 ms later the queue is empty and the router has been called
    once for each timer that was pending; letting more time pass calls it
    no more. *)
Theorem pending_navigations_fire_once (st : AppState) (t t' : Z) :
  deadlinesBounded st →
  now st + 500 ≤ t →
  t ≤ t' →
  timers (advance t st) = []
  ∧ length (navigations (advance t st))
    = (length (navigations st) + length (timers st))%nat
  ∧ navigations (advance t' (advance t st)) = navigations (advance t st).
Proof.
  intros Hb Ht Ht'.
  assert (Hall : Forall (λ d, d ≤ t) (timers st)).
  { eapply Forall_impl; [exact Hb|]. simpl. intros; lia. }
  destruct (fireDue_all parseParams serializationPrams hostRoute t (timers st) st
              eq_refl Hall) as [Hlen Hnone].
  assert (Hq : timers (advance t st) = []) by done.
  split_and!; [done|done|].
  unfold advance at 1. rewrite Hq. done.
Qed.

Lemma length_enqueue (d : Z) (q : list Z) : length (enqueue d q) = S (length q).
Proof.
  induction q as [|x q IH]; [done|]. simpl. case_decide; simpl; by rewrite ?IH.
Qed.

(** X13: Through any run of clicks and waiting, with the popper in place, the
    navigations made and the navigations still queued add up to those at
    the start plus one for each click on the close control: no
    deactivation loses its navigation, none navigates twice, and a click
    on the open button takes none away.  No deadline is ever more than
    500 ms ahead. *)
Theorem navigations_accounted_for (st : AppState) (rect : DOMRect) (events : list AppEvent) :
  popperRef st = Some rect →
  deadlinesBounded st →
  let st' := foldl (appStep parseParams serializationPrams hostRoute) st events in
  (length (navigations st') + length (timers st')
   = length (navigations st) + length (timers st) + closeClicks events)%nat
  ∧ deadlinesBounded st'
  ∧ popperRef st' = Some rect.
Proof.
  revert st. induction events as [|e events IH]; intros st Hp Hb.
  - simpl. unfold closeClicks. simpl. split_and!; [lia|done|done].
  - cbv zeta. simpl foldl.
    assert (Hstep :
      let st1 := appStep parseParams serializationPrams hostRoute st e in
      (length (navigations st1) + length (timers st1)
       = length (navigations st) + length (timers st)
         + (if decide (e = ClickClose) then 1 else 0))%nat
      ∧ deadlinesBounded st1 ∧ popperRef st1 = Some rect).
    { destruct e as [| |t]; cbv zeta; unfold appStep.
      - destruct (handleDisable_mounted st rect Hp)
          as (st1 & Hok & _ & _ & _ & Hp1 & _ & Htm & Hnav & _).
        pose proof (handleDisable_deadlinesBounded st st1 Hb Hok) as Hb1.
        rewrite Hok, decide_True by done.
        rewrite Htm, Hnav, length_enqueue. split_and!; [lia|done|done].
      - destruct (handleEnable_frame st) as (_ & _ & Hp1 & _ & Htm & Hnav).
        rewrite Htm, Hnav, Hp1, decide_False by done.
        split_and!; [lia|by apply handleEnable_deadlinesBounded|done].
      - destruct (fireDue_prefix parseParams serializationPrams hostRoute t (timers st) st
                    eq_refl) as (k & Hk & Hn & Hrest).
        destruct (advance_frame parseParams serializationPrams hostRoute t st)
          as (_ & _ & Hp1 & _).
        rewrite advance_navigations, advance_timers, Hn, Hrest, length_drop, Hp1.
        rewrite decide_False by done.
        split_and!; [lia|by apply advance_deadlinesBounded|done]. }
    destruct Hstep as (Hcount & Hb1 & Hp1).
    destruct (IH _ Hp1 Hb1) as (Hcount' & Hb' & Hp').
    split_and!; [|done|done].
    rewrite Hcount', Hcount. unfold closeClicks.
    destruct (decide (e = ClickClose)) as [->|Hne].
    + rewrite filter_cons_True by done. simpl. lia.
    + rewrite filter_cons_False by done. lia.
Qed.

End AppMore.

Lemma disable_range_only_drops_sorting_sample :
  let parse := λ _ : Location,
    {| sorting := Some [ {| orderBy := "AC_RATE"; sortOrder := DESCENDING |} ];
       custom := Some {| sort := None; rankRange := Some (1200, 1800) |};
       others := [("page", "2")] |} in
  let st := sampleEnabled in
  clearCustom (parse (location st))
  = {| sorting := None; custom := None; others := others (parse (location st)) |}
  ∧ ∃ st1, handleDisable st = Ok st1
      ∧ ∀ t, now st + 500 ≤ t →
          navigations (advance parse sampleSerialize sampleRoute t st1)
          = navigations st
            ++ [ pathname (location st) +:+ "?"
                 +:+ sampleSerialize
                       {| sorting := None; custom := None;
                          others := others (parse (location st)) |} ].
Proof.
  intros parse st.
  apply (disable_range_only_drops_sorting parse sampleSerialize sampleRoute
           sampleEnabled {| right := 900; bottom := 300 |}
           {| sort := None; rankRange := Some (1200, 1800) |}).
  - reflexivity.
  - reflexivity.
  - reflexivity.
  - reflexivity.
Defined.

Lemma disable_without_custom_keeps_params_sample :
  let st := setLocation {| pathname := "/problemset/all/"; search := "?page=2" |}
              sampleEnabled in
  ∃ st1, handleDisable st = Ok st1
    ∧ ∀ t, now st + 500 ≤ t →
        navigations (advance sampleParse sampleSerialize sampleRoute t st1)
        = navigations st
          ++ [ pathname (location st) +:+ "?"
               +:+ sampleSerialize (sampleParse (location st)) ].
Proof.
  apply (disable_without_custom_keeps_params sampleParse sampleSerialize sampleRoute
           (setLocation {| pathname := "/problemset/all/"; search := "?page=2" |}
              sampleEnabled)
           {| right := 900; bottom := 300 |}).
  - reflexivity.
  - reflexivity.
  - reflexivity.
Defined.

Lemma disable_again_same_url_sample :
  let l := location sampleEnabled in
  disableUrl sampleParse sampleSerialize
    (sampleRoute (disableUrl sampleParse sampleSerialize l) l)
  = disableUrl sampleParse sampleSerialize l.
Proof.
  apply (disable_again_same_url sampleParse sampleSerialize sampleRoute
           (location sampleEnabled)).
  - reflexivity.
  - reflexivity.
Defined.

Lemma deactivate_hides_at_once_sample :
  let st := sampleEnabled in
  ∃ st1, handleDisable st = Ok st1
    ∧ enable st1 = false
    ∧ rootDisplay st1 = "none"
    ∧ pos st1 = Some {| posRight := innerWidth st - 900; posBottom := innerHeight st - 300 |}
    ∧ dispatched st1 = dispatched st ++ [disableProblemRating]
    ∧ location st1 = location st
    ∧ timers st1 = [now st + 500]
    ∧ ∀ t, t < now st + 500 →
        navigations (advance sampleParse sampleSerialize sampleRoute t st1) = navigations st
        ∧ location (advance sampleParse sampleSerialize sampleRoute t st1) = location st.
Proof.
  apply (deactivate_hides_at_once sampleParse sampleSerialize sampleRoute
           sampleEnabled {| right := 900; bottom := 300 |}).
  - reflexivity.
  - reflexivity.
  - reflexivity.
Defined.

Lemma disable_enable_round_trip_sample :
  let st := sampleEnabled in
  ∃ st1, handleDisable st = Ok st1
    ∧ let st2 := handleEnable st1 in
      enable st2 = true
      ∧ rootDisplay st2 = "block"
      ∧ dispatched st2
        = dispatched st ++ [ disableProblemRating; enableProblemRating;
                             fetchProblemRankDataThunk; fetchAllQuestions ]
      ∧ location st2 = location st
      ∧ navigations st2 = navigations st
      ∧ timers st2 = enqueue (now st + 500) (timers st).
Proof.
  apply (disable_enable_round_trip sampleEnabled {| right := 900; bottom := 300 |}).
  - reflexivity.
  - reflexivity.
Defined.

Lemma pending_navigations_fire_once_sample :
  let st := setTimers [200; 450] sampleEnabled in
  timers (advance sampleParse sampleSerialize sampleRoute 500 st) = []
  ∧ length (navigations (advance sampleParse sampleSerialize sampleRoute 500 st))
    = (length (navigations st) + length (timers st))%nat
  ∧ navigations (advance sampleParse sampleSerialize sampleRoute 900
                   (advance sampleParse sampleSerialize sampleRoute 500 st))
    = navigations (advance sampleParse sampleSerialize sampleRoute 500 st).
Proof.
  apply (pending_navigations_fire_once sampleParse sampleSerialize sampleRoute
           (setTimers [200; 450] sampleEnabled) 500 900).
  - repeat constructor; simpl; lia.
  - simpl. lia.
  - lia.
Defined.

(** ** More about the header map *)

Section HeaderMapMore.
Variable SORT_KEY : list SortKey.

(** X14: A header cell that the filter drops (empty text, or one of the two
    excluded titles) makes no difference to the map, wherever in the row
    it stands: the cells behind it do not move to other keys. *)
Theorem otherRoots_skips_dropped_cell (before after : list Element) (cell : Element) :
  keepHeaderCell cell = false →
  otherRoots SORT_KEY (Some (before ++ cell :: after))
  = otherRoots SORT_KEY (Some (before ++ after)).
Proof.
  intros Hdrop. unfold otherRoots.
  rewrite !filter_app, filter_cons_False; [done|]. by rewrite Hdrop.
Qed.

Hypothesis SORT_KEY_distinct : NoDup (key <$> SORT_KEY).

(** X15: For any header row: the key at position [i] holds the [i]-th kept cell
    when that cell is an [HTMLElement], and nothing when it is not or when
    the row has fewer kept cells (the keys behind are not shifted); keys
    outside [SORT_KEY] hold nothing; the map has at most as many entries as
    there are keys and kept cells; and without a header row it is empty. *)
Theorem otherRoots_positional (cells : list Element) :
  let kept := filter (λ el, keepHeaderCell el = true) cells in
  let m := otherRoots SORT_KEY (Some cells) in
  (∀ i k, SORT_KEY !! i = Some k →
     m !! key k
     = match kept !! i with
       | Some child =>
           if instanceofHTMLElement child then Some (zeroPadding child) else None
       | None => None
       end)
  ∧ (∀ κ, κ ∉ key <$> SORT_KEY → m !! κ = None)
  ∧ (size m ≤ length SORT_KEY `min` length kept)%nat
  ∧ otherRoots SORT_KEY None = ∅.
Proof.
  intros kept m.
  assert (Hlook : ∀ i k, SORT_KEY !! i = Some k → m !! key k = rootAt kept i).
  { intros i k Hi. by apply otherRoots_lookup. }
  assert (Hout : ∀ κ, κ ∉ key <$> SORT_KEY → m !! κ = None).
  { intros κ Hκ. by apply otherRoots_other_key. }
  split_and!; [exact Hlook|exact Hout| |done].
  assert (Hdom : dom m ⊆ list_to_set (key <$> take (length kept) SORT_KEY)).
  { intros κ Hκ. apply elem_of_dom in Hκ as [el Hel].
    destruct (decide (κ ∈ key <$> SORT_KEY)) as [Hin|Hnot].
    2:{ by rewrite Hout in Hel. }
    apply list_elem_of_fmap in Hin as (k & -> & Hk).
    apply list_elem_of_lookup in Hk as [i Hi].
    rewrite (Hlook i k Hi) in Hel. unfold rootAt in Hel.
    destruct (kept !! i) as [child|] eqn:Hc; [|done].
    apply lookup_lt_Some in Hc.
    apply elem_of_list_to_set, list_elem_of_fmap. exists k. split; [done|].
    apply (list_elem_of_lookup_2 _ i). by rewrite lookup_take_lt. }
  apply subseteq_size in Hdom. rewrite size_dom in Hdom.
  rewrite size_list_to_set in Hdom.
  - rewrite length_fmap, length_take in Hdom. lia.
  - rewrite fmap_take. eapply sublist_NoDup; [exact SORT_KEY_distinct|apply sublist_take].
Qed.

End HeaderMapMore.

Lemma otherRoots_skips_dropped_cell_sample :
  otherRoots sampleSortKeys
    (Some ([headerCell 1 "题目"] ++ headerCell 9 "" :: [headerCell 2 "通过率"]))
  = otherRoots sampleSortKeys (Some ([headerCell 1 "题目"] ++ [headerCell 2 "通过率"])).
Proof.
  apply (otherRoots_skips_dropped_cell sampleSortKeys
           [headerCell 1 "题目"] [headerCell 2 "通过率"] (headerCell 9 "")).
  reflexivity.
Defined.

Lemma otherRoots_positional_sample :
  let cells := [ headerCell 0 "状态"; headerCell 1 "题目";
                 {| nodeId := 2; textContent := "通过率"; kind := NonHTMLElement;
                    stylePadding := "" |};
                 headerCell 3 "难度" ] in
  let kept := filter (λ el, keepHeaderCell el = true) cells in
  let m := otherRoots sampleSortKeys (Some cells) in
  (∀ i k, sampleSortKeys !! i = Some k →
     m !! key k
     = match kept !! i with
       | Some child =>
           if instanceofHTMLElement child then Some (zeroPadding child) else None
       | None => None
       end)
  ∧ (∀ κ, κ ∉ key <$> sampleSortKeys → m !! κ = None)
  ∧ (size m ≤ length sampleSortKeys `min` length kept)%nat
  ∧ otherRoots sampleSortKeys None = ∅.
Proof.
  apply (otherRoots_positional sampleSortKeys). apply (bool_decide_unpack _). by vm_compute.
Defined.

(** That header row run: the second key stays empty because its cell is
    not an [HTMLElement], and the third key still gets the third kept
    cell. *)
Example otherRoots_gap :
  let cells := [ headerCell 0 "状态"; headerCell 1 "题目";
                 {| nodeId := 2; textContent := "通过率"; kind := NonHTMLElement;
                    stylePadding := "" |};
                 headerCell 3 "难度" ] in
  let m := otherRoots sampleSortKeys (Some cells) in
  m !! "FRONTEND_ID" = Some (zeroPadding (headerCell 1 "题目"))
  ∧ m !! "AC_RATE" = None
  ∧ m !! "DIFFICULTY" = Some (zeroPadding (headerCell 3 "难度"))
  ∧ m !! "FREQUENCY" = None.
Proof. by vm_compute. Qed.

(** ** More about the rows of the table *)

Section SynchronizerMore.
Variable rowgroupChildren : Z → list Element.

Abbreviation mutation := (mutation rowgroupChildren).
Abbreviation elapse := (elapse rowgroupChildren).
Abbreviation rowsEffect := (rowsEffect rowgroupChildren).

(** With no call pending, letting time pass only moves the clock. *)
Lemma elapse_idle (t : Z) (s : SyncState) :
  timeoutId s = None →
  elapse t s
  = {| clock := clock s `max` t; timeoutId := None; observing := observing s;
       rows := rows s; republished := republished s |}.
Proof. intros Hn. unfold elapse, settle. rewrite Hn. simpl. by rewrite Hn. Qed.

(** While the observer is not connected, a mutation is no more than time
    passing. *)
Lemma mutation_unobserved (t : Z) (s : SyncState) :
  observing s = false → mutation s t = elapse t s.
Proof.
  intros Ho. unfold mutation. fold (elapse t s).
  assert (observing (elapse t s) = false) as ->; [|done].
  unfold elapse, settle. simpl.
  destruct (timeoutId s); [case_decide|]; done.
Qed.

(** X16: When the effect runs with [enable] set and finds no row group, or one
    that is not a [div], it neither scans nor subscribes: whatever
    mutations follow, no rows are published. *)
Theorem missing_rowgroup_publishes_nothing
    (s : SyncState) (rowgroup : option Element) (t : Z) (times : list Z) :
  match rowgroup with
  | Some el => instanceofHTMLDivElement el = false
  | None => True
  end →
  observing s = false →
  timeoutId s = None →
  let s' := foldl mutation (rowsEffect true rowgroup t s) times in
  republished s' = republished s ∧ rows s' = rows s
  ∧ observing s' = false ∧ timeoutId s' = None.
Proof.
  intros Hrg Ho Hn.
  assert (Hstart : rowsEffect true rowgroup t s = elapse t s).
  { unfold rowsEffect. fold (elapse t s).
    destruct rowgroup as [el|]; [by rewrite Hrg|done]. }
  rewrite Hstart, elapse_idle by done.
  set (s0 := {| clock := clock s `max` t; timeoutId := None; observing := observing s;
                rows := rows s; republished := republished s |}).
  assert (Hidle : ∀ ts s1,
    observing s1 = false → timeoutId s1 = None →
    republished (foldl mutation s1 ts) = republished s1
    ∧ rows (foldl mutation s1 ts) = rows s1
    ∧ observing (foldl mutation s1 ts) = false
    ∧ timeoutId (foldl mutation s1 ts) = None).
  { induction ts as [|t1 ts IH]; intros s1 Ho1 Hn1; [done|].
    simpl. rewrite mutation_unobserved, elapse_idle by done.
    destruct (IH {| clock := clock s1 `max` t1; timeoutId := None;
                    observing := observing s1; rows := rows s1;
                    republished := republished s1 |}) as (? & ? & ? & ?); done. }
  intros s'. apply (Hidle times s0); done.
Qed.

(** When no call is pending, the effect run again is the effect run on
    the disconnected state, and nothing is stale. *)
Lemma rerunEffect_nothing_pending
    (s : SyncState) (enabled : bool) (rowgroup : option Element) (t : Z) :
  timeoutId s = None →
  rerunEffect rowgroupChildren enabled rowgroup t {| lastRun := s; stale := [] |}
  = {| lastRun := rowsEffect enabled rowgroup t (disconnect s); stale := [] |}.
Proof.
  intros Hn. destruct s as [c tid o rw rp]. simpl in Hn. subst tid.
  unfold rerunEffect, elapseRuns, rowsEffect, disconnect, elapse, settle. simpl.
  destruct enabled, rowgroup as [el|]; [destruct (instanceofHTMLDivElement el)|..];
    simpl; by replace ((c `max` t) `max` t) with (c `max` t) by lia.
Qed.

(** X17: The effect run again while a call of the previous run is pending does
    not cancel that call.  The new run asks for a scan of its own, and
    both scans publish rows: the old one at its deadline, the new one
    500 ms after the effect ran again. *)
Theorem rerun_keeps_earlier_scan (s : SyncState) (el : Element) (t deadline : Z) :
  instanceofHTMLDivElement el = true →
  timeoutId s = Some deadline →
  clock s ≤ t →
  t < deadline ≤ t + 500 →
  let r1 := rerunEffect rowgroupChildren true (Some el) t {| lastRun := s; stale := [] |} in
  timeoutId (lastRun r1) = Some (t + 500)
  ∧ stale r1 = [deadline]
  ∧ republished (lastRun r1) = republished s
  ∧ ∀ t', t + 500 ≤ t' →
      republished (lastRun (elapseRuns rowgroupChildren t' r1))
      = republished s
        ++ [ (deadline, scanRows (rowgroupChildren deadline));
             (t + 500, scanRows (rowgroupChildren (t + 500))) ]
      ∧ rows (lastRun (elapseRuns rowgroupChildren t' r1))
        = scanRows (rowgroupChildren (t + 500))
      ∧ stale (elapseRuns rowgroupChildren t' r1) = [].
Proof.
  intros Hdiv Hd Hc Ht r1.
  assert (Hr1 : r1 = {| lastRun := {| clock := t; timeoutId := Some (t + 500);
                                      observing := true; rows := rows s;
                                      republished := republished s |};
                        stale := [deadline] |}).
  { unfold r1. destruct s as [c tid o rw rp]. simpl in Hd, Hc. subst tid.
    unfold rerunEffect, elapseRuns, rowsEffect, elapse, settle. simpl.
    rewrite decide_False by lia. simpl. rewrite Hdiv. simpl.
    by replace ((c `max` t) `max` t) with t by lia. }
  rewrite Hr1. simpl. split_and!; [done|done|done|].
  intros t' Ht'. unfold elapseRuns. cbn [lastRun stale].
  rewrite (filter_cons_True (λ d, d ≤ t')), filter_nil by lia.
  rewrite (filter_cons_False (λ d, ¬ d ≤ t')), filter_nil
    by (intros Hn; apply Hn; lia).
  unfold elapse, settle, staleCall. simpl. rewrite decide_True by lia. simpl.
  rewrite <-(assoc_L (++)). done.
Qed.

(** X18: The cleanup does not cancel a pending call of the debounced function.
    When the feature is switched off while a call is pending, the rows are
    cleared at once, and set again when the call runs. *)
Theorem teardown_keeps_pending_scan
    (s : SyncState) (rowgroup : option Element) (t deadline : Z) :
  timeoutId s = Some deadline →
  t < deadline →
  let s1 := rowsEffect false rowgroup t (disconnect s) in
  rows s1 = []
  ∧ timeoutId s1 = Some deadline
  ∧ ∀ t', deadline ≤ t' →
      rows (elapse t' s1) = scanRows (rowgroupChildren deadline)
      ∧ republished (elapse t' s1)
        = republished s ++ [(deadline, scanRows (rowgroupChildren deadline))].
Proof.
  intros Hd Ht. unfold rowsEffect, disconnect, elapse, settle. simpl.
  rewrite Hd. rewrite decide_False by lia. simpl.
  split_and!; [done|done|]. intros t' Ht'. by rewrite decide_True by lia.
Qed.

(** X19: When the effect runs with [enable] set on a row group that is a
    [div], it connects the observer and asks for one scan.  If mutations
    follow before that scan is due, each less than 500 ms after the one
    before, the first scan is the one made 500 ms after the last of them:
    nothing is published earlier. *)
Theorem first_scan_coalesces
    (s : SyncState) (el : Element) (t : Z) (times : list Z) (first final : Z) :
  instanceofHTMLDivElement el = true →
  timeoutId s = None →
  clock s ≤ t →
  head times = Some first →
  last times = Some final →
  t ≤ first < t + 500 →
  burst 499 times →
  let s1 := rowsEffect true (Some el) t s in
  let s' := foldl mutation s1 times in
  observing s1 = true
  ∧ timeoutId s1 = Some (t + 500)
  ∧ (∀ t', t' < final + 500 → republished (elapse t' s') = republished s)
  ∧ (∀ t', final + 500 ≤ t' →
       republished (elapse t' s')
       = republished s ++ [(final + 500, scanRows (rowgroupChildren (final + 500)))]).
Proof.
  intros Hdiv Hn Hc Hh Hl Hfirst Hb s1 s'.
  assert (Hs1 : s1 = {| clock := t; timeoutId := Some (t + 500); observing := true;
                        rows := rows s; republished := republished s |}).
  { unfold s1, rowsEffect. fold (elapse t s). rewrite elapse_idle by done.
    rewrite Hdiv. simpl. f_equal; [lia|f_equal; lia]. }
  destruct (burst_pending rowgroupChildren 499 times ltac:(lia) s1 first)
    as (final' & Hl' & Hrun); [by rewrite Hs1|done|rewrite Hs1; unfold quiet; simpl; lia
                              |rewrite Hs1; simpl; lia|done|].
  rewrite Hl in Hl'. injection Hl' as <-.
  unfold s'. rewrite Hrun, Hs1. simpl. split_and!; [done|done| |].
  - intros t' Ht'. unfold elapse, settle. simpl. by rewrite decide_False by lia.
  - intros t' Ht'. unfold elapse, settle. simpl. by rewrite decide_True by lia.
Qed.

(** X20: With no mutation at all, the scan asked for by the effect runs 500 ms
    after the effect and publishes the [div] children of the row group at
    that moment. *)
Theorem first_scan_alone (s : SyncState) (el : Element) (t : Z) :
  instanceofHTMLDivElement el = true →
  timeoutId s = None →
  clock s ≤ t →
  let s1 := rowsEffect true (Some el) t s in
  (∀ t', t' < t + 500 →
     republished (elapse t' s1) = republished s ∧ rows (elapse t' s1) = rows s)
  ∧ (∀ t', t + 500 ≤ t' →
       republished (elapse t' s1)
       = republished s ++ [(t + 500, scanRows (rowgroupChildren (t + 500)))]
       ∧ rows (elapse t' s1) = scanRows (rowgroupChildren (t + 500))).
Proof.
  intros Hdiv Hn Hc s1.
  assert (Hs1 : s1 = {| clock := t; timeoutId := Some (t + 500); observing := true;
                        rows := rows s; republished := republished s |}).
  { unfold s1, rowsEffect. fold (elapse t s). rewrite elapse_idle by done.
    rewrite Hdiv. simpl. f_equal; [lia|f_equal; lia]. }
  rewrite Hs1. split; intros t' Ht'; unfold elapse, settle; simpl.
  - by rewrite decide_False by lia.
  - by rewrite decide_True by lia.
Qed.

End SynchronizerMore.

Lemma missing_rowgroup_publishes_nothing_sample :
  let s' := foldl (mutation sampleRowgroup)
              (rowsEffect sampleRowgroup true None 0 sampleIdle) sampleBurst in
  republished s' = republished sampleIdle ∧ rows s' = rows sampleIdle
  ∧ observing s' = false ∧ timeoutId s' = None.
Proof.
  apply (missing_rowgroup_publishes_nothing sampleRowgroup sampleIdle None 0 sampleBurst).
  - exact I.
  - reflexivity.
  - reflexivity.
Defined.

Lemma teardown_keeps_pending_scan_sample :
  let s := rowsEffect sampleRowgroup true (Some (headerCell 1 "")) 0 sampleIdle in
  let s1 := rowsEffect sampleRowgroup false (Some (headerCell 1 "")) 100 (disconnect s) in
  rows s1 = []
  ∧ timeoutId s1 = Some 500
  ∧ ∀ t', 500 ≤ t' →
      rows (elapse sampleRowgroup t' s1) = scanRows (sampleRowgroup 500)
      ∧ republished (elapse sampleRowgroup t' s1)
        = republished s ++ [(500, scanRows (sampleRowgroup 500))].
Proof.
  apply (teardown_keeps_pending_scan sampleRowgroup
           (rowsEffect sampleRowgroup true (Some (headerCell 1 "")) 0 sampleIdle)
           (Some (headerCell 1 "")) 100 500).
  - reflexivity.
  - lia.
Defined.

Lemma first_scan_coalesces_sample :
  let s1 := rowsEffect sampleRowgroup true (Some (headerCell 1 "")) 900 sampleIdle in
  let s' := foldl (mutation sampleRowgroup) s1 sampleBurst in
  observing s1 = true
  ∧ timeoutId s1 = Some (900 + 500)
  ∧ (∀ t', t' < 2900 + 500 →
       republished (elapse sampleRowgroup t' s') = republished sampleIdle)
  ∧ (∀ t', 2900 + 500 ≤ t' →
       republished (elapse sampleRowgroup t' s')
       = republished sampleIdle ++ [(2900 + 500, scanRows (sampleRowgroup (2900 + 500)))]).
Proof.
  apply (first_scan_coalesces sampleRowgroup sampleIdle (headerCell 1 "") 900
           sampleBurst 1000 2900).
  - reflexivity.
  - reflexivity.
  - simpl. lia.
  - reflexivity.
  - reflexivity.
  - lia.
  - simpl. repeat split; lia.
Defined.

Lemma first_scan_alone_sample :
  let s1 := rowsEffect sampleRowgroup true (Some (headerCell 1 "")) 0 sampleIdle in
  (∀ t', t' < 0 + 500 →
     republished (elapse sampleRowgroup t' s1) = republished sampleIdle
     ∧ rows (elapse sampleRowgroup t' s1) = rows sampleIdle)
  ∧ (∀ t', 0 + 500 ≤ t' →
       republished (elapse sampleRowgroup t' s1)
       = republished sampleIdle ++ [(0 + 500, scanRows (sampleRowgroup (0 + 500)))]
       ∧ rows (elapse sampleRowgroup t' s1) = scanRows (sampleRowgroup (0 + 500))).
Proof.
  apply (first_scan_alone sampleRowgroup sampleIdle (headerCell 1 "") 0).
  - reflexivity.
  - reflexivity.
  - simpl. lia.
Defined.

(** ** The wrapper of the range filter *)

Lemma wrapRound_spec (hasParent : bool) (s : WrapState) :
  wrapRound hasParent s
  = {| rankRangeWrap := None;
       beforeParent := if hasParent then beforeParent s ++ [nextNode s] else beforeParent s;
       nextNode := S (nextNode s) |}.
Proof. done. Qed.

(** X21: The cleanup only forgets the wrapper, it does not take it out of the
    document: after [n] rounds of switching the feature on and off, [n]
    new nodes stand in front of the table's parent, the oldest first, and
    none of those that were there is gone.  Without a parent element
    nothing is put into the document at all. *)
Theorem wrapper_nodes_accumulate (n : nat) (hasParent : bool) (s : WrapState) :
  let s' := Nat.iter n (wrapRound hasParent) s in
  rankRangeWrap s' = (if n is O then rankRangeWrap s else None)
  ∧ beforeParent s'
    = beforeParent s ++ (if hasParent then seq (nextNode s) n else [])
  ∧ nextNode s' = (nextNode s + n)%nat.
Proof.
  induction n as [|n (Hw & Hb & Hn)]; cbv zeta in *.
  - simpl. split_and!; [done| |lia]. destruct hasParent; by rewrite app_nil_r.
  - change (Nat.iter (S n) (wrapRound hasParent) s)
      with (wrapRound hasParent (Nat.iter n (wrapRound hasParent) s)).
    rewrite wrapRound_spec. cbn [rankRangeWrap beforeParent nextNode].
    split_and!; [done| |lia].
    rewrite Hb, Hn. destruct hasParent; [|done].
    by rewrite seq_S, (assoc_L (++)).
Qed.

(** ** The home page *)

Lemma filter_out_fresh (root : nat) (children : list nat) :
  root ∉ children → filter (λ node, node ≠ root) children = children.
Proof.
  induction children as [|node children IH]; intros Hfresh; [done|].
  apply not_elem_of_cons in Hfresh as [Hne Hfresh].
  rewrite filter_cons_True by done. by rewrite IH.
Qed.

(** X22: Whichever comes first, the element being found or the cleanup, the
    container ends up with the children it had.  Found first: the new root
    is prepended and set, and the cleanup removes it again.  Cleanup
    first: the root is created but never prepended and never set, so the
    component renders nothing. *)
Theorem home_cleanup_restores_container (s : HomeState) :
  homeNext s ∉ containerChildren s →
  let mounted := homeFound (homeEffect s) in
  let late := homeFound (homeCleanup (homeEffect s)) in
  containerChildren mounted = homeNext s :: containerChildren s
  ∧ homeRoot mounted = Some (homeNext s)
  ∧ containerChildren (homeCleanup mounted) = containerChildren s
  ∧ containerChildren late = containerChildren s
  ∧ homeRoot late = homeRoot s
  ∧ (homeRoot s = None → ∀ block, homeRender block late = None).
Proof.
  intros Hfresh mounted late. unfold mounted, late, homeFound, homeCleanup, homeEffect.
  simpl. split_and!; try done.
  - rewrite filter_cons_False by (intros Hne; by apply Hne).
    by apply filter_out_fresh.
  - intros Hroot block. unfold homeRender. simpl. by rewrite Hroot.
Qed.

Lemma home_cleanup_restores_container_sample :
  let s := homeInitial in
  let mounted := homeFound (homeEffect s) in
  let late := homeFound (homeCleanup (homeEffect s)) in
  containerChildren mounted = homeNext s :: containerChildren s
  ∧ homeRoot mounted = Some (homeNext s)
  ∧ containerChildren (homeCleanup mounted) = containerChildren s
  ∧ containerChildren late = containerChildren s
  ∧ homeRoot late = homeRoot s
  ∧ (homeRoot s = None → ∀ block, homeRender block late = None).
Proof.
  apply (home_cleanup_restores_container homeInitial).
  apply (bool_decide_unpack _). by vm_compute.
Defined.

(** The block-user widgets are mounted exactly when a root has been set
    and the [block] option is [true]; while the options are not there
    (or [block] is off), nothing is rendered even with a root. *)
Lemma home_render_needs_root_and_option (block : option bool) (s : HomeState) :
  (is_Some (homeRender block s) ↔ is_Some (homeRoot s) ∧ block = Some true)
  ∧ (∀ root, homeRender block s = Some root → homeRoot s = Some root).
Proof.
  unfold homeRender. destruct (homeRoot s) as [root|], block as [[]|]; split;
    try split; intros; destruct_and?; try done;
    try (by match goal with H : is_Some None |- _ => destruct H end).
Qed.

(** ** The contest ranking page *)

Lemma contestStep_unmounted (s : ContestState) (e : ContestEvent) :
  contestIsMount s = false →
  contestIsMount (contestStep s e) = false
  ∧ titleRoot (contestStep s e) = titleRoot s
  ∧ contestRows (contestStep s e) = contestRows s.
Proof.
  intros Hm. destruct e as [parent trs|]; simpl; [|done].
  unfold contestFound. by rewrite Hm.
Qed.

(** X23: The title root and the rows are set together or not at all, whatever
    the order of events; and when the cleanup comes before the elements
    are found, neither is ever set and nothing is mounted. *)
Theorem contest_title_and_rows_together
    (events : list ContestEvent) (options : option ContestOptions) :
  let s := foldl contestStep (contestEffect contestInitial) events in
  (is_Some (titleRoot s) ↔ is_Some (contestRows s))
  ∧ (head events = Some ContestCleanup →
     titleRoot s = None ∧ contestRows s = None ∧ contestRender options s = []).
Proof.
  assert (Hinv : ∀ evs s0,
    (is_Some (titleRoot s0) ↔ is_Some (contestRows s0)) →
    is_Some (titleRoot (foldl contestStep s0 evs))
    ↔ is_Some (contestRows (foldl contestStep s0 evs))).
  { induction evs as [|e evs IH]; intros s0 H0; [done|].
    simpl. apply IH. destruct e as [parent trs|]; simpl; [|done].
    unfold contestFound. destruct (contestIsMount s0); [|done].
    simpl. split; intros _; by eexists. }
  assert (Hdead : ∀ evs s0, contestIsMount s0 = false →
    titleRoot (foldl contestStep s0 evs) = titleRoot s0
    ∧ contestRows (foldl contestStep s0 evs) = contestRows s0).
  { induction evs as [|e evs IH]; intros s0 H0; [done|].
    simpl. destruct (contestStep_unmounted s0 e H0) as (Hm & Ht & Hr).
    destruct (IH _ Hm) as [-> ->]. done. }
  intros s. split.
  - apply Hinv. simpl. split; intros [? ?]; done.
  - intros Hhead. destruct events as [|e events]; [done|].
    simpl in Hhead. injection Hhead as ->.
    destruct (Hdead events (contestCleanup (contestEffect contestInitial)) eq_refl)
      as [Ht Hr].
    unfold s. simpl. split_and!; [done|done|].
    unfold contestRender. rewrite Ht, Hr. simpl.
    by destruct (truthy _), (truthy _).
Qed.

(** X24: Every cell mounted in a row carries one and the same flag, and the
    flag is set only when there is a first row and its class is
    ['success']; without options nothing is mounted. *)
Theorem contest_my_rank_from_first_row
    (options : option ContestOptions) (s : ContestState) :
  (∀ m flag, m ∈ contestRender options s → myRankOf m = Some flag →
     flag = hasMyRank (contestRows s))
  ∧ (hasMyRank (contestRows s) = true →
     ∃ first rest, contestRows s = Some (first :: rest) ∧ className first = "success")
  ∧ contestRender None s = [].
Proof.
  split_and!.
  - intros m flag Hin Hflag. unfold contestRender in Hin.
    destruct (truthy (options ≫= ratingPredictor)), (truthy (options ≫= languageIcon)),
      (titleRoot s) as [parent|], (contestRows s) as [rows|];
      rewrite ?app_nil_r in Hin; simpl in Hin;
      repeat match goal with
      | H : _ ∈ [] |- _ => by apply elem_of_nil in H
      | H : _ ∈ _ :: _ |- _ => apply elem_of_cons in H as [->|H]; [done|]
      | H : _ ∈ _ ++ _ |- _ => apply elem_of_app in H as [H|H]
      | H : _ ∈ imap _ _ |- _ =>
          apply list_elem_of_lookup in H as [i H];
          rewrite list_lookup_imap in H;
          destruct (rows !! i); simplify_eq/=; done
      end.
  - unfold hasMyRank. destruct (contestRows s) as [[|first rest]|]; try done.
    intros Hs. apply bool_decide_eq_true in Hs. by exists first, rest.
  - unfold contestRender. simpl. by destruct (titleRoot s).
Qed.

Lemma navigations_accounted_for_sample :
  let events := [ClickClose; Wait 100; ClickClose; ClickOpen; Wait 550; ClickClose; Wait 2000] in
  let st' := foldl (appStep sampleParse sampleSerialize sampleRoute) sampleEnabled events in
  (length (navigations st') + length (timers st')
   = length (navigations sampleEnabled) + length (timers sampleEnabled)
     + closeClicks events)%nat
  ∧ deadlinesBounded st'
  ∧ popperRef st' = Some {| right := 900; bottom := 300 |}.
Proof.
  apply (navigations_accounted_for sampleParse sampleSerialize sampleRoute sampleEnabled
           {| right := 900; bottom := 300 |}
           [ClickClose; Wait 100; ClickClose; ClickOpen; Wait 550; ClickClose; Wait 2000]).
  - reflexivity.
  - constructor.
Defined.

(** That run ends with three navigations made and none pending. *)
Example sample_run_navigations :
  let st' := foldl (appStep sampleParse sampleSerialize sampleRoute) sampleEnabled
               [ClickClose; Wait 100; ClickClose; ClickOpen; Wait 550; ClickClose; Wait 2000] in
  length (navigations st') = 3%nat ∧ timers st' = [] ∧ enable st' = false.
Proof. by vm_compute. Qed.

Lemma rerun_keeps_earlier_scan_sample :
  let s := rowsEffect sampleRowgroup true (Some (headerCell 1 "")) 0 sampleIdle in
  let r1 := rerunEffect sampleRowgroup true (Some (headerCell 1 "")) 200
              {| lastRun := s; stale := [] |} in
  timeoutId (lastRun r1) = Some (200 + 500)
  ∧ stale r1 = [500]
  ∧ republished (lastRun r1) = republished s
  ∧ ∀ t', 200 + 500 ≤ t' →
      republished (lastRun (elapseRuns sampleRowgroup t' r1))
      = republished s
        ++ [ (500, scanRows (sampleRowgroup 500));
             (200 + 500, scanRows (sampleRowgroup (200 + 500))) ]
      ∧ rows (lastRun (elapseRuns sampleRowgroup t' r1))
        = scanRows (sampleRowgroup (200 + 500))
      ∧ stale (elapseRuns sampleRowgroup t' r1) = [].
Proof.
  apply (rerun_keeps_earlier_scan sampleRowgroup
           (rowsEffect sampleRowgroup true (Some (headerCell 1 "")) 0 sampleIdle)
           (headerCell 1 "") 200 500).
  - reflexivity.
  - reflexivity.
  - simpl. lia.
  - lia.
Defined.
